(** * dirtree: symbol registry, call resolution and directory tree

    A shallow embedding of [main.go] (the Go code-structure analyser) and of
    the stand-alone directory-tree generator, with the properties of the
    symbol registry, the call resolver, the call graph and the tree builder.

    Modelling conventions.
    - A [*CodeNode] is an index into a heap ([list CodeNode]); allocation
      appends to the heap, so pointer identity is index equality.
    - Go maps ([allNodes], [packages], [callCounts], the import map) are
      [gmap]s with string keys.
    - The part of [go/ast] that the program inspects is an inductive syntax
      tree; [ast.Inspect] is the pre-order traversal of that tree.
    - A file that [parser.ParseFile] rejects is [None]. *)

From Stdlib Require Import Ascii String Sorting.Sorted Structures.OrderedTypeEx.
From stdpp Require Import base option list strings gmap fin_maps sorting.

Set Warnings "-register-all".
Open Scope string_scope.
Open Scope list_scope.
Open Scope nat_scope.

(** ** Syntax trees (the fragment of go/ast used by the analyser) *)

Module Ast.

(** Expressions, types and statements.  [OtherNode] stands for every
    syntax node the analyser does not look at; [ast.Inspect] only walks
    through its children. *)
Inductive Expr : Type :=
| Ident (Name : string)
| BasicLit (Value : string)
| StarExpr (X : Expr)
| ParenExpr (X : Expr)
| SelectorExpr (X : Expr) (Sel : string)
| IndexExpr (X : Expr) (Index : Expr)
| CallExpr (Fun : Expr) (Args : list Expr)
| FuncLit (Body : list Expr)
| StructType (Fields : list Expr)
| InterfaceType (Methods : list Expr)
| OtherNode (Children : list Expr).

Inductive Spec : Type :=
| ImportSpec (Name : option string) (Path : string)
| ValueSpec (Names : list string) (Values : list Expr)
| TypeSpec (Name : string) (Type_ : Expr).

(** [Recv] is [None] for a nil receiver list, otherwise the types of the
    receiver fields. *)
Record FuncDecl : Type := mkFuncDecl {
  Recv : option (list Expr);
  FuncName : string;
  Params : list Expr;
  Body : list Expr
}.

Inductive Decl : Type :=
| DFunc (d : FuncDecl)
| DGen (Specs : list Spec).

(** [Imports] holds (alias, quoted path literal) for every import of the
    file, as [ast.File.Imports] does. *)
Record File : Type := mkFile {
  PkgName : string;
  Imports : list (option string * string);
  Decls : list Decl
}.

End Ast.
Import Ast.

(** ** Strings *)

Definition colon : ascii := ":"%char.
Definition slash : ascii := "/"%char.
Definition dquote : ascii := Ascii.Ascii false true false false false true false false.

(** [hasChar c s]: the character [c] occurs in [s]. *)
Fixpoint hasChar (c : ascii) (s : string) : bool :=
  match s with
  | EmptyString => false
  | String a s' => if Ascii.eqb a c then true else hasChar c s'
  end.

(** Go identifiers are made of letters, digits and underscores; the only
    fact about them used below is that they contain no colon. *)
Definition colonFree (s : string) : Prop := hasChar colon s = false.

(** [strings.Split(s, sep)] for a one-character separator: the pieces between
    the separators, never an empty list. *)
Fixpoint splitOn (sep : ascii) (s : string) : list string :=
  match s with
  | EmptyString => [EmptyString]
  | String a s' =>
      if Ascii.eqb a sep then EmptyString :: splitOn sep s'
      else match splitOn sep s' with
           | [] => [String a EmptyString]
           | p :: ps => String a p :: ps
           end
  end.

(** [strings.Trim] with the double quote as cutset: strip the leading and
    the trailing quote characters of an import path literal. *)
Fixpoint trimLeft (c : ascii) (s : string) : string :=
  match s with
  | String a s' => if Ascii.eqb a c then trimLeft c s' else s
  | EmptyString => EmptyString
  end.

Definition trimQuotes (s : string) : string :=
  String.rev (trimLeft dquote (String.rev (trimLeft dquote s))).

(** [filepath.Dir] on a clean relative path (what [filepath.Rel] returns):
    everything before the last separator, ["."] when there is none. *)
Definition filepathDir (relPath : string) : string :=
  match reverse (splitOn slash relPath) with
  | [] | [_] => "."
  | _ :: revInit => String.concat "/" (reverse revInit)
  end.

(** ** Qualified symbol keys *)

(** main.go:859 *)
Definition getReceiverTypeName (expr : Expr) : string :=
  match expr with
  | StarExpr (Ident name) => name
  | Ident name => name
  | _ => ""
  end.

(** main.go:849 *)
Definition buildFunctionKey (packageKey : string) (funcDecl : FuncDecl) : string :=
  match Recv funcDecl with
  | Some (t :: _) =>
      let receiverName := getReceiverTypeName t in
      if decide (receiverName ≠ "")
      then packageKey +:+ ":" +:+ receiverName +:+ "." +:+ FuncName funcDecl
      else packageKey +:+ ":" +:+ FuncName funcDecl
  | _ => packageKey +:+ ":" +:+ FuncName funcDecl
  end.

(** main.go:397 and main.go:598: the key of a package. *)
Definition mkPackageKey (packagePath packageName : string) : string :=
  packagePath +:+ ":" +:+ packageName.

(** main.go:827 *)
Definition buildImportMap (file : File) : gmap string string :=
  foldl (λ (importMap : gmap string string) imp,
           let importPath := trimQuotes imp.2 in
           let importName :=
             match imp.1 with
             | Some name => name
             | None => default "" (last (splitOn slash importPath))
             end in
           <[importName := importPath]> importMap)
        ∅ (Imports file).

(** main.go:876.  The empty string is the answer for an unknown call type. *)
Definition resolveCallExpr (callFun : Expr) (packageKey : string)
    (importMap : gmap string string) : string :=
  match callFun with
  | Ident name => packageKey +:+ ":" +:+ name
  | SelectorExpr (Ident x) sel =>
      match importMap !! x with
      | Some importPath => importPath +:+ ":" +:+ sel
      | None => packageKey +:+ ":" +:+ x +:+ "." +:+ sel
      end
  | _ => ""
  end.

(** ** Code nodes and the store *)

(** main.go:24.  [Children], [CalledBy] and [Calls] hold pointers. *)
Record CodeNode : Type := mkCodeNode {
  Name : string;
  Type_ : string;
  FilePath : string;
  Children : list nat;
  CalledBy : list nat;
  Calls : list nat;
  Implements : string;
  Receiver : string
}.

Definition setChildren (n : CodeNode) (cs : list nat) : CodeNode :=
  mkCodeNode (Name n) (Type_ n) (FilePath n) cs (CalledBy n) (Calls n)
             (Implements n) (Receiver n).

Definition setCalledBy (n : CodeNode) (cs : list nat) : CodeNode :=
  mkCodeNode (Name n) (Type_ n) (FilePath n) (Children n) cs (Calls n)
             (Implements n) (Receiver n).

Definition setCalls (n : CodeNode) (cs : list nat) : CodeNode :=
  mkCodeNode (Name n) (Type_ n) (FilePath n) (Children n) (CalledBy n) cs
             (Implements n) (Receiver n).

(** The heap of code nodes and the global [allNodes] map (main.go:49). *)
Record State : Type := mkState {
  heap : list CodeNode;
  allNodes : gmap string nat
}.

(** [&CodeNode{...}]: the new node sits at the end of the heap. *)
Definition alloc (n : CodeNode) (st : State) : nat * State :=
  (length (heap st), mkState (heap st ++ [n]) (allNodes st)).

(** [allNodes[key] = p] *)
Definition setNode (key : string) (p : nat) (st : State) : State :=
  mkState (heap st) (<[key := p]> (allNodes st)).

(** [p.Children = append(p.Children, c)] *)
Definition appendChild (p c : nat) (st : State) : State :=
  mkState (alter (λ n, setChildren n (Children n ++ [c])) p (heap st))
          (allNodes st).

(** The lists behind a pointer; a pointer outside the heap has none. *)
Definition callsOf (st : State) (p : nat) : list nat :=
  from_option Calls [] (heap st !! p).

Definition calledByOf (st : State) (p : nat) : list nat :=
  from_option CalledBy [] (heap st !! p).

(** ** Declaration extraction *)

(** main.go:445 *)
Definition processFunction (funcDecl : FuncDecl) (relPath : string) : CodeNode :=
  let functionNode := mkCodeNode (FuncName funcDecl) "function" relPath [] [] [] "" "" in
  match Recv funcDecl with
  | Some (t :: _) =>
      let receiver :=
        match t with
        | StarExpr x => match x with Ident name => name | _ => "" end
        | Ident name => name
        | _ => ""
        end in
      mkCodeNode (FuncName funcDecl) "method" relPath [] [] [] "" receiver
  | _ => functionNode
  end.

(** main.go:473 *)
Definition processType (name : string) (type_ : Expr) (relPath : string) : CodeNode :=
  let typeKind :=
    match type_ with
    | StructType _ => "struct"
    | InterfaceType _ => "interface"
    | _ => "type"
    end in
  mkCodeNode name typeKind relPath [] [] [] "" "".

(** main.go:421-424 and main.go:435: the name under which a function, method
    or type node enters [allNodes] (a type node has no receiver). *)
Definition nodeKey (packageKey : string) (node : CodeNode) : string :=
  if decide (Receiver node ≠ "")
  then packageKey +:+ ":" +:+ Receiver node +:+ "." +:+ Name node
  else packageKey +:+ ":" +:+ Name node.

(** main.go:415-426, one function declaration of the file. *)
Definition registerFunction (packageKey relPath : string) (packageNode : nat)
    (d : FuncDecl) (st : State) : State :=
  let '(functionNode, st) := alloc (processFunction d relPath) st in
  let st := appendChild packageNode functionNode st in
  setNode (nodeKey packageKey (processFunction d relPath)) functionNode st.

(** main.go:428-438, one spec of a general declaration. *)
Definition registerSpec (packageKey relPath : string) (packageNode : nat)
    (spec : Spec) (st : State) : State :=
  match spec with
  | TypeSpec name type_ =>
      let '(typeNode, st) := alloc (processType name type_ relPath) st in
      let st := appendChild packageNode typeNode st in
      setNode (packageKey +:+ ":" +:+ name) typeNode st
  | _ => st
  end.

Definition registerDecl (packageKey relPath : string) (packageNode : nat)
    (st : State) (decl : Decl) : State :=
  match decl with
  | DFunc d => registerFunction packageKey relPath packageNode d st
  | DGen specs =>
      foldl (λ st spec, registerSpec packageKey relPath packageNode spec st) st specs
  end.

(** main.go:386.  [packages] is the map of package nodes that
    [buildProjectStructure] owns, [codeRoot] its repository node. *)
Definition processGoFile (relPath : string) (file : option File) (codeRoot : nat)
    (ps : gmap string nat * State) : gmap string nat * State :=
  match file with
  | None => ps
  | Some file =>
      let '(packages, st) := ps in
      let packageName := PkgName file in
      let packagePath := filepathDir relPath in
      let packageKey := mkPackageKey packagePath packageName in
      let '(packageNode, packages, st) :=
        match packages !! packageKey with
        | Some existingNode => (existingNode, packages, st)
        | None =>
            let '(p, st) := alloc (mkCodeNode packageName "package" packagePath
                                              [] [] [] "" "") st in
            (p, <[packageKey := p]> packages, appendChild codeRoot p st)
        end in
      (packages, foldl (registerDecl packageKey relPath packageNode) st (Decls file))
  end.

(** The Go files met by the walk, in walk order: relative path and parse
    result ([None] when the parser returns an error). *)
Definition SourceUnit : Type := string * option File.

(** main.go:326, restricted to the code structure: the repository node is
    allocated first, then every Go file is processed in walk order. *)
Definition buildProjectStructure (repoName : string) (units : list SourceUnit)
    (st : State) : nat * State :=
  let '(codeRoot, st) := alloc (mkCodeNode repoName "repository" "" [] [] [] "" "") st in
  (codeRoot,
   (foldl (λ ps (u : SourceUnit), processGoFile u.1 u.2 codeRoot ps) (∅, st) units).2).

(** ** Call resolution and the call graph *)

(** main.go:900 *)
Definition functionCallExists (st : State) (caller callee : nat) : bool :=
  existsb (λ call, Nat.eqb call callee) (callsOf st caller).

(** [a.Calls = append(a.Calls, b)] and [b.CalledBy = append(b.CalledBy, a)],
    one after the other through the two pointers. *)
Definition appendCall (a b : nat) (st : State) : State :=
  mkState (alter (λ n, setCalls n (Calls n ++ [b])) a (heap st)) (allNodes st).

Definition appendCalledBy (b a : nat) (st : State) : State :=
  mkState (alter (λ n, setCalledBy n (CalledBy n ++ [a])) b (heap st)) (allNodes st).

(** main.go:628-637: the edge from the node registered under
    [currentFuncKey] to the node registered under [calledFuncKey]. *)
Definition establishRelationship (currentFuncKey calledFuncKey : string)
    (st : State) : State :=
  match allNodes st !! currentFuncKey with
  | Some currentNode =>
      match allNodes st !! calledFuncKey with
      | Some calledNode =>
          if functionCallExists st currentNode calledNode then st
          else appendCalledBy calledNode currentNode
                 (appendCall currentNode calledNode st)
      | None => st
      end
  | None => st
  end.

(** The variables captured by the visitor of main.go:608.  [currentFunc] is
    [None] while the Go variable is nil and otherwise carries
    [currentFuncKey]. *)
Record Walk : Type := mkWalk {
  currentFunc : option string;
  callCounts : gmap string nat;
  store : State
}.

(** [callCounts[key]++].  A count is at most the number of call expressions
    visited, far inside the range of [int], so it is a natural number here. *)
Definition increment (key : string) (counts : gmap string nat) : gmap string nat :=
  <[key := S (default 0 (counts !! key))]> counts.

(** main.go:610-614, the visitor at a function declaration. *)
Definition visitFuncDecl (packageKey : string) (d : FuncDecl) (w : Walk) : Walk :=
  mkWalk (Some (buildFunctionKey packageKey d)) (callCounts w) (store w).

(** main.go:616-638, the visitor at a call expression with function [callFun]. *)
Definition visitCallExpr (packageKey : string) (importMap : gmap string string)
    (callFun : Expr) (w : Walk) : Walk :=
  match currentFunc w with
  | None => w
  | Some currentFuncKey =>
      let calledFuncKey := resolveCallExpr callFun packageKey importMap in
      if decide (calledFuncKey ≠ "")
      then mkWalk (currentFunc w)
                  (increment calledFuncKey (callCounts w))
                  (establishRelationship currentFuncKey calledFuncKey (store w))
      else w
  end.

(** [ast.Inspect] below an expression: the visitor runs at a node before its
    children, children are walked in source order, and the visitor always
    asks to go on. *)
Fixpoint inspectExpr (packageKey : string) (importMap : gmap string string)
    (e : Expr) (w : Walk) : Walk :=
  let walkList := foldl (λ w e, inspectExpr packageKey importMap e w) in
  match e with
  | Ident _ | BasicLit _ => w
  | StarExpr x | ParenExpr x | SelectorExpr x _ => inspectExpr packageKey importMap x w
  | IndexExpr x i =>
      inspectExpr packageKey importMap i (inspectExpr packageKey importMap x w)
  | CallExpr callFun args =>
      let w := visitCallExpr packageKey importMap callFun w in
      walkList (inspectExpr packageKey importMap callFun w) args
  | FuncLit es | StructType es | InterfaceType es | OtherNode es => walkList w es
  end.

Definition inspectList (packageKey : string) (importMap : gmap string string)
    (w : Walk) (es : list Expr) : Walk :=
  foldl (λ w e, inspectExpr packageKey importMap e w) w es.

Definition inspectSpec (packageKey : string) (importMap : gmap string string)
    (w : Walk) (spec : Spec) : Walk :=
  match spec with
  | ImportSpec _ _ => w
  | ValueSpec _ values => inspectList packageKey importMap w values
  | TypeSpec _ type_ => inspectExpr packageKey importMap type_ w
  end.

(** [ast.Inspect] below a top-level declaration: receiver, parameters, body. *)
Definition inspectDecl (packageKey : string) (importMap : gmap string string)
    (w : Walk) (decl : Decl) : Walk :=
  match decl with
  | DFunc d =>
      let w := visitFuncDecl packageKey d w in
      let w := inspectList packageKey importMap w (default [] (Recv d)) in
      let w := inspectList packageKey importMap w (Params d) in
      inspectList packageKey importMap w (Body d)
  | DGen specs => foldl (inspectSpec packageKey importMap) w specs
  end.

(** main.go:588-642, one Go file: [currentFunc] starts out nil in every file. *)
Definition analyzeFile (relPath : string) (file : option File)
    (cs : gmap string nat * State) : gmap string nat * State :=
  match file with
  | None => cs
  | Some file =>
      let packageKey := mkPackageKey (filepathDir relPath) (PkgName file) in
      let importMap := buildImportMap file in
      let w := foldl (inspectDecl packageKey importMap)
                     (mkWalk None cs.1 cs.2) (Decls file) in
      (callCounts w, store w)
  end.

(** main.go:567 *)
Definition analyzeFunctionCalls (units : list SourceUnit) (st : State)
    : gmap string nat * State :=
  foldl (λ cs (u : SourceUnit), analyzeFile u.1 u.2 cs) (∅, st) units.

(** [main]: the structure is built over all files, then the calls are
    analysed over all files. *)
Definition analyse (repoName : string) (units : list SourceUnit)
    : nat * gmap string nat * State :=
  let '(codeRoot, st) := buildProjectStructure repoName units (mkState [] ∅) in
  let '(counts, st) := analyzeFunctionCalls units st in
  (codeRoot, counts, st).

(** ** Notions used by the properties *)

(** The part of a key after the package key. *)
Definition keySuffix (node : CodeNode) : string :=
  if decide (Receiver node ≠ "") then Receiver node +:+ "." +:+ Name node
  else Name node.

(** The receiver types whose name the extractor recovers: [T] and [*T]. *)
Definition namedReceiver (T : string) (d : FuncDecl) : Prop :=
  ∃ rest, Recv d = Some (Ident T :: rest) ∨ Recv d = Some (StarExpr (Ident T) :: rest).

(** Every registered pointer points into the heap. *)
Definition registryValid (st : State) : Prop :=
  ∀ key p, allNodes st !! key = Some p → p < length (heap st).

(** The call relation and its inverse agree: [e] is among the calls of [d]
    exactly when [d] is among the callers of [e]. *)
Definition callsSymmetric (st : State) : Prop :=
  ∀ d e, e ∈ callsOf st d ↔ d ∈ calledByOf st e.

(** The operations of a run: extraction of a file into the registry and
    resolution of the calls of a file. *)
Inductive Op : Type :=
| Extract (relPath : string) (file : option File)
| Resolve (relPath : string) (file : option File).

(** What a run owns: the repository node, the package map of the extractor,
    the call counts of the resolver, and the store. *)
Record World : Type := mkWorld {
  codeRoot : nat;
  packages : gmap string nat;
  counts : gmap string nat;
  world : State
}.

Definition initialWorld (repoName : string) : World :=
  let '(root, st) := alloc (mkCodeNode repoName "repository" "" [] [] [] "" "")
                           (mkState [] ∅) in
  mkWorld root ∅ ∅ st.

Definition step (w : World) (op : Op) : World :=
  match op with
  | Extract relPath file =>
      let ps := processGoFile relPath file (codeRoot w) (packages w, world w) in
      mkWorld (codeRoot w) ps.1 (counts w) ps.2
  | Resolve relPath file =>
      let cs := analyzeFile relPath file (counts w, world w) in
      mkWorld (codeRoot w) (packages w) cs.1 cs.2
  end.

Definition run (repoName : string) (ops : list Op) : World :=
  foldl step (initialWorld repoName) ops.

(** No node is listed twice among the calls or among the callers of a node. *)
Definition edgesOnce (st : State) : Prop :=
  ∀ d, NoDup (callsOf st d) ∧ NoDup (calledByOf st d).

(** The three invariants together. *)
Definition storeOk (st : State) : Prop :=
  registryValid st ∧ callsSymmetric st ∧ edgesOnce st.

(** [declares packageKey relPath decl key node]: processing the single
    declaration [decl] of a file enters [node] under [key]. *)
Inductive declares (packageKey relPath : string) : Decl → string → CodeNode → Prop :=
| declares_func d :
    declares packageKey relPath (DFunc d)
             (nodeKey packageKey (processFunction d relPath))
             (processFunction d relPath)
| declares_type name type_ :
    declares packageKey relPath (DGen [TypeSpec name type_])
             (packageKey +:+ ":" +:+ name)
             (processType name type_ relPath).

(** Sample declarations and files. *)
Definition funcInit : FuncDecl := mkFuncDecl None "init" [] [].

Definition fileInit : File := mkFile "p" [] [DFunc funcInit].

(** [func A() { B() }] and [func B() {}]. *)
Definition funcA : FuncDecl :=
  mkFuncDecl None "A" [] [OtherNode [CallExpr (Ident "B") []]].

Definition funcB : FuncDecl := mkFuncDecl None "B" [] [].

Definition fileAB : File := mkFile "p" [] [DFunc funcA; DFunc funcB].

(** [func A() {}], then [var v = B()], then [func B() int { return 0 }]. *)
Definition fileInitializer : File :=
  mkFile "p" []
    [DFunc (mkFuncDecl None "A" [] []);
     DGen [ValueSpec ["v"] [CallExpr (Ident "B") []]];
     DFunc (mkFuncDecl None "B" [] [OtherNode [BasicLit "0"]])].

(** [func A() {}], [func B() {}] and [func C() { A(); B() }]. *)
Definition fileTie : File :=
  mkFile "p" []
    [DFunc (mkFuncDecl None "A" [] []);
     DFunc (mkFuncDecl None "B" [] []);
     DFunc (mkFuncDecl None "C" []
              [OtherNode [CallExpr (Ident "A") []]; OtherNode [CallExpr (Ident "B") []]])].

(** ** The table of most called functions *)

(** main.go:915: an entry is a key with its count. *)
Definition FunctionCallCount : Type := string * nat.

(** main.go:929-931, the comparison handed to [sort.Slice]:
    [mostCalled[i].Count > mostCalled[j].Count]. *)
Definition lessCount (x y : FunctionCallCount) : bool := Nat.ltb y.2 x.2.

(** A row of the table: display name, type, file and call count. *)
Definition Row : Type := string * string * string * nat.

Definition rowCount (r : Row) : nat := r.2.

(** main.go:935-946: the row of an entry whose key is registered. *)
Definition mostCalledRow (st : State) (fn : FunctionCallCount) : option Row :=
  match allNodes st !! fn.1 with
  | Some p =>
      match heap st !! p with
      | Some node =>
          let displayName :=
            if decide (Type_ node = "method")
            then "(" +:+ Receiver node +:+ ") " +:+ Name node
            else Name node in
          Some (displayName, Type_ node, FilePath node, fn.2)
      | None => None
      end
  | None => None
  end.

(** The order in which [range] walks a map is not fixed by the language: an
    iteration order of a map is any enumeration of its entries. *)
Definition iterationOrder (callCounts : gmap string nat)
    (order : list FunctionCallCount) : Prop :=
  order ≡ₚ map_to_list callCounts.

(** main.go:910, the rows written to the report.  [order] is the order in
    which the loop of main.go:921 met the entries of [callCounts];
    [sortSlice] is [sort.Slice], taken by its comparison and its slice. *)
Definition addMostCalledFunctionsToOutput
    (sortSlice : (FunctionCallCount → FunctionCallCount → bool) →
                 list FunctionCallCount → list FunctionCallCount)
    (st : State) (order : list FunctionCallCount) : list Row :=
  let mostCalled := sortSlice lessCount order in
  omap (mostCalledRow st) mostCalled.

(** What the documentation of [sort.Slice] promises for this comparison: the
    result is a rearrangement of the slice in which no later element is less
    than an earlier one.  Nothing is promised about equal elements. *)
Definition sortsByCount
    (sortSlice : (FunctionCallCount → FunctionCallCount → bool) →
                 list FunctionCallCount → list FunctionCallCount) : Prop :=
  ∀ l, sortSlice lessCount l ≡ₚ l
       ∧ StronglySorted (λ x y, lessCount y x = false) (sortSlice lessCount l).

(** The insertion sort that [sort.Slice] runs on a short slice: each element
    in turn moves left while it is less than its left neighbour.  The sorted
    prefix is kept in reverse, its head being the left neighbour. *)
Fixpoint insertLeft {A} (less : A → A → bool) (x : A) (revPrefix : list A) : list A :=
  match revPrefix with
  | [] => [x]
  | y :: rest => if less x y then y :: insertLeft less x rest else x :: y :: rest
  end.

Definition insertionSort {A} (less : A → A → bool) (l : list A) : list A :=
  reverse (foldl (λ revPrefix x, insertLeft less x revPrefix) [] l).

(** ** The directory tree *)

Module DirTree.

(** main.go:36 *)
Inductive TreeNode : Type :=
| mkTreeNode (Name : string) (IsDir : bool) (Children : list TreeNode).

Definition Name (n : TreeNode) : string := let 'mkTreeNode name _ _ := n in name.
Definition IsDir (n : TreeNode) : bool := let 'mkTreeNode _ isDir _ := n in isDir.
Definition Children (n : TreeNode) : list TreeNode :=
  let 'mkTreeNode _ _ children := n in children.

(** main.go:787-804, the search among the children of the current node.  The
    first child named [part] becomes the current node and the rest of the
    path goes into it ([continue_]); when there is none, [newNode], already
    holding the rest of the path, is appended. *)
Fixpoint intoChild (part : string) (continue_ : TreeNode → TreeNode)
    (newNode : TreeNode) (children : list TreeNode) : list TreeNode :=
  match children with
  | [] => [newNode]
  | child :: others =>
      if String.eqb (Name child) part then continue_ child :: others
      else child :: intoChild part continue_ newNode others
  end.

(** main.go:782-805, the loop over the parts of the path from [current]. *)
Fixpoint addParts (parts : list string) (isDir : bool) (current : TreeNode) : TreeNode :=
  match parts with
  | [] => current
  | part :: rest =>
      let isLastPart := bool_decide (rest = []) in
      let newNode := mkTreeNode part (negb isLastPart || isDir) [] in
      mkTreeNode (Name current) (IsDir current)
        (intoChild part (addParts rest isDir) (addParts rest isDir newNode)
                   (Children current))
  end.

(** main.go:777; the path separator is the slash. *)
Definition addNodeToTree (root : TreeNode) (path : string) (isDir : bool) : TreeNode :=
  addParts (splitOn slash path) isDir root.

(** Every node of the tree has children with pairwise distinct names. *)
Inductive distinctNames : TreeNode → Prop :=
| distinctNames_node name isDir children :
    NoDup (Name <$> children) → Forall distinctNames children →
    distinctNames (mkTreeNode name isDir children).

End DirTree.

(** ** Induction over syntax trees

    The induction principle that reaches the expressions inside the lists
    of a node. *)

Section expr_induction.
Variable P : Expr → Prop.
Hypothesis HIdent : ∀ name, P (Ident name).
Hypothesis HBasicLit : ∀ v, P (BasicLit v).
Hypothesis HStar : ∀ x, P x → P (StarExpr x).
Hypothesis HParen : ∀ x, P x → P (ParenExpr x).
Hypothesis HSelector : ∀ x sel, P x → P (SelectorExpr x sel).
Hypothesis HIndex : ∀ x i, P x → P i → P (IndexExpr x i).
Hypothesis HCall : ∀ f args, P f → Forall P args → P (CallExpr f args).
Hypothesis HFuncLit : ∀ es, Forall P es → P (FuncLit es).
Hypothesis HStruct : ∀ es, Forall P es → P (StructType es).
Hypothesis HInterface : ∀ es, Forall P es → P (InterfaceType es).
Hypothesis HOther : ∀ es, Forall P es → P (OtherNode es).

Fixpoint Expr_nested_ind (e : Expr) : P e :=
  let all := fix all (es : list Expr) : Forall P es :=
    match es with
    | [] => @List.Forall_nil Expr P
    | e' :: es' => @List.Forall_cons Expr P e' es' (Expr_nested_ind e') (all es')
    end in
  match e with
  | Ident name => HIdent name
  | BasicLit v => HBasicLit v
  | StarExpr x => HStar x (Expr_nested_ind x)
  | ParenExpr x => HParen x (Expr_nested_ind x)
  | SelectorExpr x sel => HSelector x sel (Expr_nested_ind x)
  | IndexExpr x i => HIndex x i (Expr_nested_ind x) (Expr_nested_ind i)
  | CallExpr f args => HCall f args (Expr_nested_ind f) (all args)
  | FuncLit es => HFuncLit es (all es)
  | StructType es => HStruct es (all es)
  | InterfaceType es => HInterface es (all es)
  | OtherNode es => HOther es (all es)
  end.
End expr_induction.

(** ** Call sites

    The traversal of a file, laid out as the sequence of the nodes at which
    the visitor of main.go:608 does something. *)

(** The called expressions of the call expressions below [e], in the order
    in which [ast.Inspect] meets them. *)
Fixpoint callsIn (e : Expr) : list Expr :=
  match e with
  | Ident _ | BasicLit _ => []
  | StarExpr x | ParenExpr x | SelectorExpr x _ => callsIn x
  | IndexExpr x i => callsIn x ++ callsIn i
  | CallExpr callFun args => callFun :: callsIn callFun ++ flat_map callsIn args
  | FuncLit es | StructType es | InterfaceType es | OtherNode es => flat_map callsIn es
  end.

Definition callsInSpec (spec : Spec) : list Expr :=
  match spec with
  | ImportSpec _ _ => []
  | ValueSpec _ values => flat_map callsIn values
  | TypeSpec _ type_ => callsIn type_
  end.

Inductive Event : Type :=
| EnterFunc (d : FuncDecl)
| CallSite (callFun : Expr).

Definition eventsOfDecl (decl : Decl) : list Event :=
  match decl with
  | DFunc d =>
      EnterFunc d ::
      (CallSite <$> (flat_map callsIn (default [] (Recv d))
                     ++ flat_map callsIn (Params d)
                     ++ flat_map callsIn (Body d)))
  | DGen specs => CallSite <$> flat_map callsInSpec specs
  end.

Definition visitEvent (packageKey : string) (importMap : gmap string string)
    (w : Walk) (ev : Event) : Walk :=
  match ev with
  | EnterFunc d => visitFuncDecl packageKey d w
  | CallSite callFun => visitCallExpr packageKey importMap callFun w
  end.

(** The calls that the visitor resolves, as pairs of the key of the function
    it believes to be in and the key of the callee: calls met while
    [currentFunc] is nil and calls of unknown shape are left out. *)
Fixpoint resolvedCalls (packageKey : string) (importMap : gmap string string)
    (current : option string) (events : list Event) : list (string * string) :=
  match events with
  | [] => []
  | EnterFunc d :: events =>
      resolvedCalls packageKey importMap (Some (buildFunctionKey packageKey d)) events
  | CallSite callFun :: events =>
      let rest := resolvedCalls packageKey importMap current events in
      match current with
      | None => rest
      | Some currentFuncKey =>
          let calledFuncKey := resolveCallExpr callFun packageKey importMap in
          if decide (calledFuncKey ≠ "") then (currentFuncKey, calledFuncKey) :: rest
          else rest
      end
  end.

(** The resolved calls of a file and of a list of files. *)
Definition fileCalls (relPath : string) (file : option File) : list (string * string) :=
  match file with
  | None => []
  | Some file =>
      resolvedCalls (mkPackageKey (filepathDir relPath) (PkgName file))
                    (buildImportMap file) None (flat_map eventsOfDecl (Decls file))
  end.

Definition unitsCalls (units : list SourceUnit) : list (string * string) :=
  flat_map (λ u : SourceUnit, fileCalls u.1 u.2) units.

(** What a list of resolved calls does to the counts and to the store. *)
Definition countCalls (counts : gmap string nat) (calls : list (string * string))
    : gmap string nat :=
  foldl (λ counts call, increment call.2 counts) counts calls.

Definition linkCalls (st : State) (calls : list (string * string)) : State :=
  foldl (λ st call, establishRelationship call.1 call.2 st) st calls.

(** The edges of the store, as pairs of pointers. *)
Definition hasEdge (st : State) (a b : nat) : Prop := b ∈ callsOf st a.

(** [nodeGrows n n']: [n'] is [n] with, at most, more pointers at the end of
    its three lists. *)
Definition nodeGrows (n n' : CodeNode) : Prop :=
  Name n' = Name n ∧ Type_ n' = Type_ n ∧ FilePath n' = FilePath n
  ∧ Implements n' = Implements n ∧ Receiver n' = Receiver n
  ∧ Children n `prefix_of` Children n'
  ∧ Calls n `prefix_of` Calls n'
  ∧ CalledBy n `prefix_of` CalledBy n'.

(** [storeGrows st st']: every key of [st] is still registered in [st'] and
    every node of [st] is still there, grown at most. *)
Definition storeGrows (st st' : State) : Prop :=
  (∀ key, is_Some (allNodes st !! key) → is_Some (allNodes st' !! key))
  ∧ (∀ p n, heap st !! p = Some n → ∃ n', heap st' !! p = Some n' ∧ nodeGrows n n').

(** ** The nodes of a file *)

(** The nodes that main.go:413-441 creates for a declaration, in order: one
    for a function declaration, one for each type spec of a general
    declaration. *)
Definition specNodes (relPath : string) (spec : Spec) : list CodeNode :=
  match spec with
  | TypeSpec name type_ => [processType name type_ relPath]
  | _ => []
  end.

Definition declNodes (relPath : string) (decl : Decl) : list CodeNode :=
  match decl with
  | DFunc d => [processFunction d relPath]
  | DGen specs => flat_map (specNodes relPath) specs
  end.

Definition fileNodes (relPath : string) (file : File) : list CodeNode :=
  flat_map (declNodes relPath) (Decls file).

(** A node with more children at the end. *)
Definition adopt (children : list nat) (n : CodeNode) : CodeNode :=
  setChildren n (Children n ++ children).

(** The keys under which a declaration is registered. *)
Definition declKeys (packageKey : string) (decl : Decl) : list string :=
  match decl with
  | DFunc d => [buildFunctionKey packageKey d]
  | DGen specs =>
      flat_map (λ spec, match spec with
                        | TypeSpec name _ => [packageKey +:+ ":" +:+ name]
                        | _ => []
                        end) specs
  end.

(** The package key of a file that parses. *)
Definition unitPackageKey (u : SourceUnit) : option string :=
  match u.2 with
  | Some file => Some (mkPackageKey (filepathDir u.1) (PkgName file))
  | None => None
  end.

Definition packageKeys (units : list SourceUnit) : gset string :=
  list_to_set (omap unitPackageKey units).

(** [grown parent h nodes]: the heap [h] after [nodes] were allocated one by
    one and each made a child of [parent]. *)
Definition grown (parent : nat) (h : list CodeNode) (nodes : list CodeNode)
    : list CodeNode :=
  alter (adopt (seq (length h) (length nodes))) parent h ++ nodes.

(** What the loop of [buildProjectStructure] keeps true: the package nodes
    lie after the repository node, inside the heap, one child of the
    repository node per entry of the package map, and the keys of the map
    are the package keys met so far. *)
Definition packagesOk (root : nat) (keys : gset string)
    (ps : gmap string nat * State) : Prop :=
  (∀ key q, ps.1 !! key = Some q → root < q ∧ q < length (heap ps.2))
  ∧ (∃ rootNode, heap ps.2 !! root = Some rootNode
                 ∧ length (Children rootNode) = size ps.1)
  ∧ dom ps.1 = keys.

(** ** The directory tree: search, rendering and sorting *)

Module DirTreeOps.
Import DirTree.

(** The search of main.go:787-793: the first child with the name [part]. *)
Definition findChild (part : string) (children : list TreeNode) : option TreeNode :=
  find (λ child, String.eqb (Name child) part) children.

(** The node that the loop of [addNodeToTree] reaches along [parts] when it
    finds every part. *)
Fixpoint findPath (parts : list string) (current : TreeNode) : option TreeNode :=
  match parts with
  | [] => Some current
  | part :: rest =>
      match findChild part (Children current) with
      | Some child => findPath rest child
      | None => None
      end
  end.

(** The connectors and indentations of the two renderers. *)
Definition connector (isLast : bool) : string := if isLast then "└── " else "├── ".
Definition indentation (isLast : bool) : string := if isLast then "    " else "│   ".
Definition newline : string := String (Ascii.ascii_of_nat 10) "".

(** The line of a node: prefix, connector, name, a slash for a directory. *)
Definition nodeLine (node : TreeNode) (prefix : string) (isLast : bool) : string :=
  prefix +:+ connector isLast +:+ Name node
  +:+ (if IsDir node then "/" else "") +:+ newline.

(** [generateTree] of the stand-alone tool (part_000:128): the text it
    returns.  A node without name prints no line and leaves the prefix as it
    is, but its children are printed. *)
Fixpoint generateTree (node : TreeNode) (prefix : string) (isLast : bool) : string :=
  let 'mkTreeNode name _ children := node in
  let named := negb (String.eqb name "") in
  let prefix' := if named then prefix +:+ indentation isLast else prefix in
  (if named then nodeLine node prefix isLast else "")
  +:+ (fix processChildren (children : list TreeNode) : string :=
         match children with
         | [] => ""
         | child :: others =>
             generateTree child prefix' (match others with [] => true | _ => false end)
             +:+ processChildren others
         end) children.

(** [RenderNode] of a [TreeNode] with [renderChildren] (main.go:279 and
    main.go:315): the text written to the builder.  A node without name
    writes nothing at all. *)
Fixpoint RenderNode (node : TreeNode) (prefix : string) (isLast : bool) : string :=
  let 'mkTreeNode name _ children := node in
  if String.eqb name "" then ""
  else
    let nodePrefix := prefix +:+ indentation isLast in
    nodeLine node prefix isLast
    +:+ (fix renderChildren (children : list TreeNode) : string :=
           match children with
           | [] => ""
           | child :: others =>
               RenderNode child nodePrefix (match others with [] => true | _ => false end)
               +:+ renderChildren others
           end) children.

(** No node of the tree has the empty name. *)
Inductive allNamed : TreeNode → Prop :=
| allNamed_node name isDir children :
    name ≠ "" → Forall allNamed children → allNamed (mkTreeNode name isDir children).

(** main.go:811-818, the comparison handed to [sort.Slice]: a directory
    comes before a file, and two nodes of one kind go by name.  The order on
    names is the bytewise order of Go strings. *)
Definition lessNode (a b : TreeNode) : bool :=
  if Bool.eqb (IsDir a) (IsDir b) then String.ltb (Name a) (Name b) else IsDir a.

(** The number of levels below a node. *)
Fixpoint height (node : TreeNode) : nat :=
  let 'mkTreeNode _ _ children := node in
  (fix below (children : list TreeNode) : nat :=
     match children with
     | [] => 0
     | child :: others => S (height child) `max` below others
     end) children.

(** main.go:809.  [sort.Slice] is a parameter, so the walk down the sorted
    children is not structural and takes its depth as fuel; [sortTree]
    supplies the height of the tree, which is enough
    ([sortTree_unfold]). *)
Fixpoint sortTreeFuel
    (sortSlice : (TreeNode → TreeNode → bool) → list TreeNode → list TreeNode)
    (fuel : nat) (node : TreeNode) : TreeNode :=
  match fuel with
  | 0 => node
  | S fuel =>
      mkTreeNode (Name node) (IsDir node)
        (sortTreeFuel sortSlice fuel <$> sortSlice lessNode (Children node))
  end.

Definition sortTree
    (sortSlice : (TreeNode → TreeNode → bool) → list TreeNode → list TreeNode)
    (node : TreeNode) : TreeNode :=
  sortTreeFuel sortSlice (height node) node.

(** What [sort.Slice] promises for this comparison: a rearrangement in which
    no later node is less than an earlier one. *)
Definition sortsNodes
    (sortSlice : (TreeNode → TreeNode → bool) → list TreeNode → list TreeNode) : Prop :=
  ∀ l, sortSlice lessNode l ≡ₚ l
       ∧ StronglySorted (λ x y, lessNode y x = false) (sortSlice lessNode l).

(** Every list of children in the tree is in order. *)
Inductive sortedTree : TreeNode → Prop :=
| sortedTree_node name isDir children :
    StronglySorted (λ x y, lessNode y x = false) children →
    Forall sortedTree children →
    sortedTree (mkTreeNode name isDir children).

End DirTreeOps.

(** ** Induction over directory trees *)

Section tree_induction.
Import DirTree.
Variable P : TreeNode → Prop.
Hypothesis Hnode : ∀ name isDir children,
  Forall P children → P (mkTreeNode name isDir children).

Fixpoint TreeNode_nested_ind (node : TreeNode) : P node :=
  let 'mkTreeNode name isDir children := node in
  Hnode name isDir children
    ((fix all (cs : list TreeNode) : Forall P cs :=
        match cs with
        | [] => @List.Forall_nil TreeNode P
        | c :: cs' => @List.Forall_cons TreeNode P c cs' (TreeNode_nested_ind c) (all cs')
        end) children).
End tree_induction.

(** ** Imports, entry points and statistics *)

(** main.go:835-840: the name under which an import enters the import map,
    its alias or else the last segment of its path. *)
Definition importAlias (imp : option string * string) : string :=
  match imp.1 with
  | Some name => name
  | None => default "" (last (splitOn slash (trimQuotes imp.2)))
  end.

(** main.go:545-553: the file declares a function [main] without receiver. *)
Definition declaresMain (file : File) : bool :=
  existsb (λ decl, match decl with
                   | DFunc d => String.eqb (FuncName d) "main"
                                && match Recv d with None => true | Some _ => false end
                   | DGen _ => false
                   end) (Decls file).

(** main.go:516, over the Go files of the walk: the directory of every file
    of a package [main] that declares [main], one entry per file. *)
Definition findMainPackages (units : list SourceUnit) : list string :=
  flat_map (λ u : SourceUnit,
              match u.2 with
              | Some file =>
                  if String.eqb (PkgName file) "main" && declaresMain file
                  then [filepathDir u.1] else []
              | None => []
              end) units.

(** main.go:182-201, the tally of the declarations of one file in the
    statistics map. *)
Definition countSpec (stats : gmap string nat) (spec : Spec) : gmap string nat :=
  match spec with
  | TypeSpec _ (StructType _) => increment "structs" stats
  | TypeSpec _ (InterfaceType _) => increment "interfaces" stats
  | _ => stats
  end.

Definition countDecl (stats : gmap string nat) (decl : Decl) : gmap string nat :=
  match decl with
  | DFunc d =>
      match Recv d with
      | Some _ => increment "methods" stats
      | None => increment "functions" stats
      end
  | DGen specs => foldl countSpec stats specs
  end.

Definition countDeclarations (stats : gmap string nat) (file : File) : gmap string nat :=
  foldl countDecl stats (Decls file).

(** The number of nodes of a kind among the nodes of a file. *)
Definition nodesOfType (kind : string) (nodes : list CodeNode) : nat :=
  length (filter (λ n, Type_ n = kind) nodes).

(** No function declaration of the file has a receiver list without fields. *)
Definition receiversNonEmpty (file : File) : Prop :=
  ∀ d, DFunc d ∈ Decls file → Recv d ≠ Some [].

(** The entry of a key in a map of counters, zero when there is none. *)
Definition tally (key : string) (stats : gmap string nat) : nat :=
  default 0 (stats !! key).

(** The four counters of the statistics against a list of nodes: structs and
    interfaces agree, functions and methods agree in sum, and one by one
    when [exact] holds. *)
Definition talliesMatch (stats stats' : gmap string nat)
    (nodes : list CodeNode) (exact : Prop) : Prop :=
  tally "structs" stats' = tally "structs" stats + nodesOfType "struct" nodes
  ∧ tally "interfaces" stats' = tally "interfaces" stats + nodesOfType "interface" nodes
  ∧ tally "functions" stats' + tally "methods" stats'
    = tally "functions" stats + tally "methods" stats
      + nodesOfType "function" nodes + nodesOfType "method" nodes
  ∧ (exact →
     tally "functions" stats' = tally "functions" stats + nodesOfType "function" nodes
     ∧ tally "methods" stats' = tally "methods" stats + nodesOfType "method" nodes).

(** ** Keys in the call graph diagram *)

(** [strings.ReplaceAll] for an old and a new string of one character. *)
Fixpoint replaceAll (old new : ascii) (s : string) : string :=
  match s with
  | EmptyString => EmptyString
  | String a s' => String (if Ascii.eqb a old then new else a) (replaceAll old new s')
  end.

(** main.go:740-742, the key cleaned for Mermaid: colons, dots and slashes
    become underscores, in that order. *)
Definition cleanKey (key : string) : string :=
  replaceAll "/" "_" (replaceAll "." "_" (replaceAll ":" "_" key)).

(** The number of occurrences of a character in a string. *)
Fixpoint countChar (c : ascii) (s : string) : nat :=
  match s with
  | EmptyString => 0
  | String a s' => (if Ascii.eqb a c then 1 else 0) + countChar c s'
  end.

(** Every registered key holds two colons at least: one inside the package
    key and one before the name. *)
Definition keysQualified (st : State) : Prop :=
  ∀ key, is_Some (allNodes st !! key) → 2 ≤ countChar colon key.

(** No declaration of the file is a function declaration. *)
Definition noFunctions (file : File) : Prop :=
  ∀ decl, decl ∈ Decls file → ∃ specs, decl = DGen specs.

(** * Properties *)

(** ** Strings and keys *)

Lemma append_nil_l (s : string) : "" +:+ s = s.
Proof. reflexivity. Qed.

Lemma append_cons (a : ascii) (s t : string) : String a s +:+ t = String a (s +:+ t).
Proof. reflexivity. Qed.

(** Push concatenations through the constructors of their left operand. *)
Ltac str_simpl :=
  repeat first [rewrite append_nil_l | rewrite append_cons]; simpl.

Ltac str_simpl_in H :=
  repeat first [rewrite append_nil_l in H | rewrite append_cons in H]; simpl in H.

Lemma hasChar_app_mid c s t : hasChar c (s +:+ String c t) = true.
Proof.
  induction s as [|a s IH]; str_simpl.
  - by rewrite Ascii.eqb_refl.
  - destruct (Ascii.eqb a c); [done | exact IH].
Qed.

Lemma hasChar_app c s t : hasChar c (s +:+ t) = hasChar c s || hasChar c t.
Proof.
  induction s as [|a s IH]; str_simpl; [done |].
  destruct (Ascii.eqb a c); [done | exact IH].
Qed.

(** A string is cut in one way only at its last colon. *)
Lemma app_colon_inj s1 s2 t1 t2 :
  colonFree t1 → colonFree t2 →
  s1 +:+ ":" +:+ t1 = s2 +:+ ":" +:+ t2 → s1 = s2 ∧ t1 = t2.
Proof.
  unfold colonFree. intros Ht1 Ht2. revert s2.
  induction s1 as [|a s1 IH]; intros [|b s2] Heq; str_simpl_in Heq.
  - by injection Heq as ->.
  - injection Heq as _ ->.
    pose proof (hasChar_app_mid colon s2 t2) as Hc. unfold colon in *. congruence.
  - injection Heq as _ <-.
    pose proof (hasChar_app_mid colon s1 t1) as Hc. unfold colon in *. congruence.
  - injection Heq as -> Heq. destruct (IH _ Heq) as [-> ->]. done.
Qed.

Lemma app_inv_head_str (s t1 t2 : string) : s +:+ t1 = s +:+ t2 → t1 = t2.
Proof. induction s as [|a s IH]; str_simpl; [done |]. intros [=]. auto. Qed.

Lemma app_length_str (s t : string) :
  String.length (s +:+ t) = String.length s + String.length t.
Proof. induction s as [|a s IH]; str_simpl; [done | by rewrite IH]. Qed.

Lemma nodeKey_suffix packageKey node :
  nodeKey packageKey node = packageKey +:+ ":" +:+ keySuffix node.
Proof. unfold nodeKey, keySuffix. by case_decide. Qed.

Lemma keySuffix_colonFree node :
  colonFree (Name node) → colonFree (Receiver node) → colonFree (keySuffix node).
Proof.
  unfold colonFree, keySuffix. intros Hn Hr. case_decide; [|done].
  rewrite hasChar_app, Hr. str_simpl. exact Hn.
Qed.

(** The extractor and the resolver name a function declaration alike. *)
Lemma buildFunctionKey_nodeKey packageKey d relPath :
  buildFunctionKey packageKey d = nodeKey packageKey (processFunction d relPath).
Proof.
  unfold buildFunctionKey, nodeKey, processFunction.
  destruct (Recv d) as [[|t ts]|]; simpl; done.
Qed.

(** C5.  The resolver dispatches on the shape of the called expression: a bare
    identifier [f] gives the current package key with [f]; a selector [x.F]
    whose base identifier is an import alias gives the imported path with [F];
    a selector [x.M] whose base identifier is no alias gives the current
    package key with [x.M], the text of [x] standing for the receiver type;
    every other shape gives the empty key, and the visitor skips an empty
    key without a trace. *)
Theorem resolveCallExpr_dispatch (packageKey : string) (importMap : gmap string string) :
  (∀ f, resolveCallExpr (Ident f) packageKey importMap = packageKey +:+ ":" +:+ f) ∧
  (∀ x F importPath, importMap !! x = Some importPath →
     resolveCallExpr (SelectorExpr (Ident x) F) packageKey importMap
     = importPath +:+ ":" +:+ F) ∧
  (∀ x M, importMap !! x = None →
     resolveCallExpr (SelectorExpr (Ident x) M) packageKey importMap
     = packageKey +:+ ":" +:+ x +:+ "." +:+ M) ∧
  (∀ callFun, (∀ f, callFun ≠ Ident f) → (∀ x sel, callFun ≠ SelectorExpr (Ident x) sel) →
     resolveCallExpr callFun packageKey importMap = ""
     ∧ ∀ w, visitCallExpr packageKey importMap callFun w = w).
Proof.
  split; [done |]. split; [|split].
  - intros x F importPath Hx. simpl. by rewrite Hx.
  - intros x M Hx. simpl. by rewrite Hx.
  - intros callFun HnotIdent HnotSel.
    assert (resolveCallExpr callFun packageKey importMap = "") as Hres.
    { destruct callFun as [f| | | |x sel| | | | | |]; simpl; try done.
      - by destruct (HnotIdent f).
      - destruct x as [n| | | | | | | | | |]; try done. by destruct (HnotSel n sel). }
    split; [exact Hres |].
    intros w. unfold visitCallExpr. rewrite Hres.
    destruct (currentFunc w); [|done]. by case_decide.
Qed.

Lemma resolveCallExpr_dispatch_witness :
  resolveCallExpr (SelectorExpr (Ident "u") "Do") ".:p" {["u" := "lib/util"]}
  = "lib/util:Do"
  ∧ resolveCallExpr (SelectorExpr (Ident "x") "M") ".:p" {["u" := "lib/util"]}
    = ".:p:x.M"
  ∧ resolveCallExpr (CallExpr (Ident "f") []) ".:p" {["u" := "lib/util"]} = "".
Proof.
  destruct (resolveCallExpr_dispatch ".:p" {["u" := "lib/util"]})
    as (_ & Halias & Hmethod & Hother).
  split; [|split].
  - exact (Halias "u" "Do" "lib/util" eq_refl).
  - exact (Hmethod "x" "M" eq_refl).
  - apply (Hother (CallExpr (Ident "f") [])); intros; discriminate.
Defined.

(** A key determines the package path, the package name and the suffix. *)
Lemma nodeKey_inj path1 path2 pkg1 pkg2 n1 n2 :
  colonFree pkg1 → colonFree pkg2 →
  colonFree (Name n1) → colonFree (Receiver n1) →
  colonFree (Name n2) → colonFree (Receiver n2) →
  nodeKey (mkPackageKey path1 pkg1) n1 = nodeKey (mkPackageKey path2 pkg2) n2 →
  path1 = path2 ∧ pkg1 = pkg2 ∧ keySuffix n1 = keySuffix n2.
Proof.
  intros Hp1 Hp2 Hn1 Hr1 Hn2 Hr2. rewrite !nodeKey_suffix. intros Heq.
  apply app_colon_inj in Heq as [Hpk Hsuf]; [|by apply keySuffix_colonFree..].
  unfold mkPackageKey in Hpk. apply app_colon_inj in Hpk as [-> ->]; done.
Qed.

(** Where the keys do separate declarations.  Declarations whose package
    names and own names are Go identifiers get different keys when their
    package paths differ; and in one package a method whose receiver type is
    a named type [T] or a pointer [*T] never shares its key with the
    function of the same name. *)
Theorem nodeKey_collision_free :
  (∀ path1 path2 pkg n1 n2,
     colonFree pkg →
     colonFree (Name n1) → colonFree (Receiver n1) →
     colonFree (Name n2) → colonFree (Receiver n2) →
     path1 ≠ path2 →
     nodeKey (mkPackageKey path1 pkg) n1 ≠ nodeKey (mkPackageKey path2 pkg) n2) ∧
  (∀ packageKey relPath T m f,
     T ≠ "" → namedReceiver T m → Recv f = None → FuncName m = FuncName f →
     nodeKey packageKey (processFunction m relPath)
     ≠ nodeKey packageKey (processFunction f relPath)
     ∧ buildFunctionKey packageKey m ≠ buildFunctionKey packageKey f).
Proof.
  split.
  - intros path1 path2 pkg n1 n2 Hp Hn1 Hr1 Hn2 Hr2 Hne Heq.
    apply nodeKey_inj in Heq as (? & _ & _); done.
  - intros packageKey relPath T m f HT [rest Hm] Hf Hname.
    rewrite !(buildFunctionKey_nodeKey _ _ relPath).
    assert (nodeKey packageKey (processFunction m relPath)
            ≠ nodeKey packageKey (processFunction f relPath)) as Hne; [|done].
    assert (Receiver (processFunction m relPath) = T
            ∧ Name (processFunction m relPath) = FuncName m) as [Hrecv Hnm].
    { unfold processFunction. by destruct Hm as [-> | ->]. }
    assert (Receiver (processFunction f relPath) = ""
            ∧ Name (processFunction f relPath) = FuncName f) as [Hrecv' Hnm'].
    { unfold processFunction. by rewrite Hf. }
    unfold nodeKey. rewrite Hrecv, Hrecv', Hnm, Hnm', Hname.
    rewrite decide_True by done. rewrite decide_False by (intros H; by apply H).
    intros Heq. apply app_inv_head_str, app_inv_head_str in Heq.
    apply (f_equal String.length) in Heq.
    rewrite !app_length_str in Heq. simpl in Heq. lia.
Qed.

Lemma nodeKey_collision_free_witness :
  nodeKey (mkPackageKey "a/util" "util") (processFunction (mkFuncDecl None "Do" [] []) "a/util/u.go")
  ≠ nodeKey (mkPackageKey "b/util" "util") (processFunction (mkFuncDecl None "Do" [] []) "b/util/u.go")
  ∧ nodeKey ".:p" (processFunction (mkFuncDecl (Some [StarExpr (Ident "T")]) "Name" [] []) "a.go")
    ≠ nodeKey ".:p" (processFunction (mkFuncDecl None "Name" [] []) "a.go").
Proof.
  destruct nodeKey_collision_free as [Hpath Hmethod]. split.
  - apply Hpath; try reflexivity. discriminate.
  - apply (Hmethod ".:p" "a.go" "T"); try reflexivity; [discriminate |].
    exists []. right. reflexivity.
Defined.

(** C7 is broken by a method on a generic type: the receiver [*Stack[T]] is
    a star over an index expression, a case that [getReceiverTypeName] and
    [processFunction] do not have, so the receiver name comes out empty and
    the method [Push] gets the key of the function [Push], in the extractor
    and in the resolver alike. *)
Lemma nodeKey_generic_receiver_collides :
  let m := mkFuncDecl (Some [StarExpr (IndexExpr (Ident "Stack") (Ident "T"))]) "Push" [] [] in
  let f := mkFuncDecl None "Push" [] [] in
  Type_ (processFunction m "s.go") = "method"
  ∧ Type_ (processFunction f "s.go") = "function"
  ∧ nodeKey ".:p" (processFunction m "s.go") = nodeKey ".:p" (processFunction f "s.go")
  ∧ buildFunctionKey ".:p" m = buildFunctionKey ".:p" f.
Proof. repeat split. Qed.

(** ** The store: what each primitive does to the two edge lists *)

Section store.
Implicit Types (st : State) (n : CodeNode) (p q a b : nat).

Lemma lookup_alter_proj {B} (proj : CodeNode → B) (dflt : B) (g : CodeNode → CodeNode)
    (h : list CodeNode) p q :
  (∀ n, proj (g n) = proj n) →
  from_option proj dflt (alter g p h !! q) = from_option proj dflt (h !! q).
Proof.
  intros Hg. destruct (decide (p = q)) as [->|Hne].
  - rewrite list_lookup_alter_eq. destruct (h !! q); simpl; auto.
  - by rewrite list_lookup_alter_ne.
Qed.

Lemma callsOf_alloc n st p :
  callsOf (alloc n st).2 p
  = if decide (p = length (heap st)) then Calls n else callsOf st p.
Proof.
  unfold callsOf, alloc. simpl. case_decide as Hp.
  - subst p. by rewrite list_lookup_middle.
  - destruct (decide (p < length (heap st))).
    + by rewrite lookup_app_l.
    + rewrite !lookup_ge_None_2; [done | lia | rewrite length_app; simpl; lia].
Qed.

Lemma calledByOf_alloc n st p :
  calledByOf (alloc n st).2 p
  = if decide (p = length (heap st)) then CalledBy n else calledByOf st p.
Proof.
  unfold calledByOf, alloc. simpl. case_decide as Hp.
  - subst p. by rewrite list_lookup_middle.
  - destruct (decide (p < length (heap st))).
    + by rewrite lookup_app_l.
    + rewrite !lookup_ge_None_2; [done | lia | rewrite length_app; simpl; lia].
Qed.

Lemma callsOf_appendChild p q st c : callsOf (appendChild p c st) q = callsOf st q.
Proof. unfold callsOf, appendChild. simpl. by apply lookup_alter_proj. Qed.

Lemma calledByOf_appendChild p q st c :
  calledByOf (appendChild p c st) q = calledByOf st q.
Proof. unfold calledByOf, appendChild. simpl. by apply lookup_alter_proj. Qed.

Lemma callsOf_appendCall a b st q :
  a < length (heap st) →
  callsOf (appendCall a b st) q
  = if decide (q = a) then callsOf st a ++ [b] else callsOf st q.
Proof.
  intros Ha. unfold callsOf, appendCall. simpl. case_decide as Hq.
  - subst q. rewrite list_lookup_alter_eq.
    destruct (lookup_lt_is_Some_2 _ _ Ha) as [n ->]. done.
  - by rewrite list_lookup_alter_ne.
Qed.

Lemma calledByOf_appendCall a b st q :
  calledByOf (appendCall a b st) q = calledByOf st q.
Proof. unfold calledByOf, appendCall. simpl. by apply lookup_alter_proj. Qed.

Lemma callsOf_appendCalledBy a b st q :
  callsOf (appendCalledBy b a st) q = callsOf st q.
Proof. unfold callsOf, appendCalledBy. simpl. by apply lookup_alter_proj. Qed.

Lemma calledByOf_appendCalledBy a b st q :
  b < length (heap st) →
  calledByOf (appendCalledBy b a st) q
  = if decide (q = b) then calledByOf st b ++ [a] else calledByOf st q.
Proof.
  intros Hb. unfold calledByOf, appendCalledBy. simpl. case_decide as Hq.
  - subst q. rewrite list_lookup_alter_eq.
    destruct (lookup_lt_is_Some_2 _ _ Hb) as [n ->]. done.
  - by rewrite list_lookup_alter_ne.
Qed.

Lemma functionCallExists_spec st a b :
  functionCallExists st a b = true ↔ b ∈ callsOf st a.
Proof.
  unfold functionCallExists. rewrite existsb_exists. split.
  - intros (x & Hin & Heq). apply Nat.eqb_eq in Heq as ->. by apply list_elem_of_In.
  - intros Hin. exists b. split; [by apply list_elem_of_In | apply Nat.eqb_refl].
Qed.

Lemma functionCallExists_false st a b :
  functionCallExists st a b = false ↔ b ∉ callsOf st a.
Proof.
  rewrite <- functionCallExists_spec. destruct (functionCallExists st a b); naive_solver.
Qed.

(** The shape of an edge insertion that went through. *)
Lemma establishRelationship_fresh st ka kb a b :
  allNodes st !! ka = Some a → allNodes st !! kb = Some b →
  b ∉ callsOf st a →
  establishRelationship ka kb st = appendCalledBy b a (appendCall a b st).
Proof.
  intros Ha Hb Hnew. unfold establishRelationship. rewrite Ha, Hb.
  apply functionCallExists_false in Hnew. by rewrite Hnew.
Qed.

Lemma establishRelationship_present st ka kb a b :
  allNodes st !! ka = Some a → allNodes st !! kb = Some b →
  b ∈ callsOf st a →
  establishRelationship ka kb st = st.
Proof.
  intros Ha Hb Hold. unfold establishRelationship. rewrite Ha, Hb.
  apply functionCallExists_spec in Hold. by rewrite Hold.
Qed.

Lemma allNodes_establishRelationship ka kb st :
  allNodes (establishRelationship ka kb st) = allNodes st.
Proof.
  unfold establishRelationship.
  destruct (allNodes st !! ka); [|done]. destruct (allNodes st !! kb); [|done].
  by destruct (functionCallExists _ _ _).
Qed.

Lemma length_heap_establishRelationship ka kb st :
  length (heap (establishRelationship ka kb st)) = length (heap st).
Proof.
  unfold establishRelationship.
  destruct (allNodes st !! ka); [|done]. destruct (allNodes st !! kb); [|done].
  destruct (functionCallExists _ _ _); [done |].
  unfold appendCalledBy, appendCall. simpl. by rewrite !length_alter.
Qed.

End store.

(** ** Properties of the traversal *)

Section traversal.
Variables (packageKey : string) (importMap : gmap string string).

(** A property of the visitor state that every visit of a call expression
    keeps is kept by the whole traversal below an expression. *)
Section invariant.
Variable I : Walk → Prop.
Hypothesis visit_keeps : ∀ callFun w, I w → I (visitCallExpr packageKey importMap callFun w).

Lemma foldl_inspect_keeps (es : list Expr) :
  Forall (λ e, ∀ w, I w → I (inspectExpr packageKey importMap e w)) es →
  ∀ w, I w → I (foldl (λ w e, inspectExpr packageKey importMap e w) w es).
Proof. induction 1 as [|e es He _ IH]; simpl; auto. Qed.

Lemma inspectExpr_keeps e : ∀ w, I w → I (inspectExpr packageKey importMap e w).
Proof.
  induction e using Expr_nested_ind; intros w Hw; simpl; auto using foldl_inspect_keeps.
Qed.

Lemma inspectList_keeps es w : I w → I (inspectList packageKey importMap w es).
Proof.
  unfold inspectList. apply foldl_inspect_keeps.
  apply Forall_forall. intros e _. apply inspectExpr_keeps.
Qed.

Lemma inspectSpec_keeps spec w : I w → I (inspectSpec packageKey importMap w spec).
Proof. destruct spec; simpl; auto using inspectList_keeps, inspectExpr_keeps. Qed.

Lemma inspectSpecs_keeps specs : ∀ w,
  I w → I (foldl (inspectSpec packageKey importMap) w specs).
Proof. induction specs; simpl; auto using inspectSpec_keeps. Qed.

Hypothesis enter_keeps : ∀ d w, I w → I (visitFuncDecl packageKey d w).

Lemma inspectDecl_keeps decl w : I w → I (inspectDecl packageKey importMap w decl).
Proof. destruct decl; simpl; auto using inspectList_keeps, inspectSpecs_keeps. Qed.

Lemma inspectDecls_keeps decls : ∀ w,
  I w → I (foldl (inspectDecl packageKey importMap) w decls).
Proof. induction decls; simpl; auto using inspectDecl_keeps. Qed.

End invariant.
End traversal.

(** ** Invariants of the store *)

Lemma storeOk_empty : storeOk (mkState [] ∅).
Proof.
  split; [|split].
  - intros key p. simpl. by rewrite lookup_empty.
  - intros d e. unfold callsOf, calledByOf. simpl. destruct d, e; simpl;
      split; intros H; by apply elem_of_nil in H.
  - intros d. unfold callsOf, calledByOf. simpl. destruct d; simpl;
      split; apply NoDup_nil_2.
Qed.

Lemma calledByOf_outside (st : State) (p : nat) :
  (length (heap st) ≤ p)%nat → calledByOf st p = [].
Proof. intros Hp. unfold calledByOf. by rewrite lookup_ge_None_2. Qed.

Lemma callsOf_outside (st : State) (p : nat) :
  (length (heap st) ≤ p)%nat → callsOf st p = [].
Proof. intros Hp. unfold callsOf. by rewrite lookup_ge_None_2. Qed.

(** Allocating a node without edges. *)
Lemma storeOk_alloc n st :
  Calls n = [] → CalledBy n = [] → storeOk st → storeOk (alloc n st).2.
Proof.
  intros Hc Hb (Hreg & Hsym & Honce). split; [|split].
  - intros key p Hkey. apply Hreg in Hkey. simpl. rewrite length_app. simpl. lia.
  - intros d e. rewrite callsOf_alloc, calledByOf_alloc, Hc, Hb.
    pose proof (Hsym d e) as Hde.
    repeat case_decide; subst.
    + split; intros Hin; by apply elem_of_nil in Hin.
    + rewrite callsOf_outside in Hde by lia. split; intros Hin.
      * by apply elem_of_nil in Hin.
      * apply Hde in Hin. by apply elem_of_nil in Hin.
    + rewrite calledByOf_outside in Hde by lia. split; intros Hin.
      * apply Hde in Hin. by apply elem_of_nil in Hin.
      * by apply elem_of_nil in Hin.
    + exact Hde.
  - intros d. rewrite callsOf_alloc, calledByOf_alloc, Hc, Hb.
    case_decide; [split; apply NoDup_nil_2 | apply Honce].
Qed.

Lemma storeOk_appendChild p c st : storeOk st → storeOk (appendChild p c st).
Proof.
  intros (Hreg & Hsym & Honce). split; [|split].
  - intros key q Hkey. apply Hreg in Hkey. simpl. by rewrite length_alter.
  - intros d e. rewrite callsOf_appendChild, calledByOf_appendChild. apply Hsym.
  - intros d. rewrite callsOf_appendChild, calledByOf_appendChild. apply Honce.
Qed.

Lemma storeOk_setNode key p st :
  p < length (heap st) → storeOk st → storeOk (setNode key p st).
Proof.
  intros Hp [Hreg Hrest]. split; [|exact Hrest].
  intros key' q. simpl. rewrite lookup_insert. case_decide.
  - intros [= <-]. exact Hp.
  - apply Hreg.
Qed.

(** The registration pattern of main.go:416-425 and main.go:430-436. *)
Lemma storeOk_register n parent key st :
  Calls n = [] → CalledBy n = [] → storeOk st →
  storeOk (setNode key (alloc n st).1 (appendChild parent (alloc n st).1 (alloc n st).2)).
Proof.
  intros Hc Hb Hst. apply storeOk_setNode.
  - simpl. rewrite length_alter, length_app. simpl. lia.
  - by apply storeOk_appendChild, storeOk_alloc.
Qed.

Lemma storeOk_registerDecl packageKey relPath packageNode st decl :
  storeOk st → storeOk (registerDecl packageKey relPath packageNode st decl).
Proof.
  destruct decl as [d|specs]; simpl.
  - intros Hst. unfold registerFunction.
    apply (storeOk_register (processFunction d relPath)); [| |done];
      unfold processFunction; by destruct (Recv d) as [[|? ?]|].
  - revert st. induction specs as [|spec specs IH]; intros st Hst; simpl; [done |].
    apply IH. destruct spec as [| |name type_]; simpl; try done.
    by apply (storeOk_register (processType name type_ relPath)).
Qed.

Lemma storeOk_processGoFile relPath file root packages st :
  storeOk st → storeOk (processGoFile relPath file root (packages, st)).2.
Proof.
  intros Hst. destruct file as [file|]; [|done]. unfold processGoFile.
  set (packageKey := mkPackageKey _ _).
  assert (∀ decls packageNode st', storeOk st' →
            storeOk (foldl (registerDecl packageKey relPath packageNode) st' decls))
    as Hfold.
  { induction decls as [|decl decls IH]; intros packageNode st' Hst'; simpl; [done |].
    by apply IH, storeOk_registerDecl. }
  destruct (packages !! packageKey) as [existing|]; simpl.
  - by apply Hfold.
  - apply Hfold. by apply storeOk_appendChild, (storeOk_alloc (mkCodeNode _ _ _ _ _ _ _ _)).
Qed.

(** Edge insertion keeps the invariants. *)
Lemma storeOk_establishRelationship ka kb st :
  storeOk st → storeOk (establishRelationship ka kb st).
Proof.
  intros (Hreg & Hsym & Honce). split.
  { intros key p. rewrite allNodes_establishRelationship, length_heap_establishRelationship.
    apply Hreg. }
  destruct (allNodes st !! ka) as [a|] eqn:Ha;
    [|unfold establishRelationship; by rewrite Ha].
  destruct (allNodes st !! kb) as [b|] eqn:Hb;
    [|unfold establishRelationship; by rewrite Ha, Hb].
  destruct (decide (b ∈ callsOf st a)) as [Hin|Hnew].
  { by rewrite (establishRelationship_present st ka kb a b). }
  rewrite (establishRelationship_fresh st ka kb a b) by done.
  pose proof (Hreg _ _ Ha) as Hva. pose proof (Hreg _ _ Hb) as Hvb.
  assert (b < length (heap (appendCall a b st))) as Hvb'
    by (unfold appendCall; simpl; by rewrite length_alter).
  split.
  - intros d e. rewrite callsOf_appendCalledBy, callsOf_appendCall by done.
    rewrite calledByOf_appendCalledBy by done.
    rewrite !calledByOf_appendCall. pose proof (Hsym d e) as Hde.
    repeat case_decide; subst; rewrite ?elem_of_app, ?list_elem_of_singleton;
      intuition congruence.
  - intros d. rewrite callsOf_appendCalledBy, callsOf_appendCall by done.
    rewrite calledByOf_appendCalledBy by done.
    rewrite !calledByOf_appendCall. destruct (Honce d) as [Hcalls Hcallers].
    split; case_decide; subst; try done.
    + apply NoDup_app. split; [done |]. split; [|apply NoDup_singleton].
      intros e He Heb. by apply list_elem_of_singleton in Heb as ->.
    + apply NoDup_app. split; [done |]. split; [|apply NoDup_singleton].
      intros e He Hea. apply list_elem_of_singleton in Hea as ->.
      by apply Hnew, Hsym.
Qed.

Lemma storeOk_visitCallExpr packageKey importMap callFun w :
  storeOk (store w) → storeOk (store (visitCallExpr packageKey importMap callFun w)).
Proof.
  intros Hw. unfold visitCallExpr. destruct (currentFunc w); [|done].
  case_decide; [|done]. simpl. by apply storeOk_establishRelationship.
Qed.

Lemma storeOk_analyzeFile relPath file cc st :
  storeOk st → storeOk (analyzeFile relPath file (cc, st)).2.
Proof.
  intros Hst. destruct file as [file|]; [|done]. simpl.
  apply (inspectDecls_keeps _ _ (λ w, storeOk (store w))); [| |done].
  - intros; by apply storeOk_visitCallExpr.
  - done.
Qed.

(** ** The symbol registry *)

Lemma registerDecl_declares packageKey relPath parent st decl key node :
  declares packageKey relPath decl key node →
  registerDecl packageKey relPath parent st decl
  = setNode key (length (heap st))
      (appendChild parent (length (heap st)) (alloc node st).2).
Proof. by intros [d|name type_]. Qed.

Lemma lookup_registered key parent node st :
  parent < length (heap st) →
  let st' := setNode key (length (heap st))
               (appendChild parent (length (heap st)) (alloc node st).2) in
  allNodes st' !! key = Some (length (heap st))
  ∧ heap st' !! length (heap st) = Some node
  ∧ length (heap st') = S (length (heap st)).
Proof.
  intros Hparent. simpl. split; [|split].
  - by rewrite lookup_insert_eq.
  - rewrite list_lookup_alter_ne by lia. by rewrite list_lookup_middle.
  - rewrite length_alter, length_app. simpl. lia.
Qed.

(** C1, as the code has it.  When two declarations with the same key are
    registered one after the other, the entry of the key is the declaration
    registered last: the second insertion replaces the pointer of the first
    by the pointer of a new node that carries the second declaration. *)
Theorem registry_last_seen_wins
    (packageKey1 packageKey2 relPath1 relPath2 key : string)
    (parent1 parent2 : nat) (decl1 decl2 : Decl) (node1 node2 : CodeNode) (st : State) :
  declares packageKey1 relPath1 decl1 key node1 →
  declares packageKey2 relPath2 decl2 key node2 →
  parent1 < length (heap st) → parent2 < length (heap st) →
  let st1 := registerDecl packageKey1 relPath1 parent1 st decl1 in
  let st2 := registerDecl packageKey2 relPath2 parent2 st1 decl2 in
  ∃ p1 p2, p1 ≠ p2
    ∧ allNodes st1 !! key = Some p1 ∧ heap st1 !! p1 = Some node1
    ∧ allNodes st2 !! key = Some p2 ∧ heap st2 !! p2 = Some node2.
Proof.
  intros Hd1 Hd2 Hp1 Hp2 st1 st2. subst st1 st2.
  rewrite (registerDecl_declares _ _ _ _ _ _ _ Hd2).
  rewrite (registerDecl_declares _ _ _ _ _ _ _ Hd1).
  set (st1 := setNode key _ _).
  destruct (lookup_registered key parent1 node1 st Hp1) as (Hk1 & Hn1 & Hlen1).
  fold st1 in Hk1, Hn1, Hlen1.
  assert (parent2 < length (heap st1)) as Hp2' by lia.
  destruct (lookup_registered key parent2 node2 st1 Hp2') as (Hk2 & Hn2 & _).
  exists (length (heap st)), (length (heap st1)).
  split; [lia |]. done.
Qed.

Lemma registry_last_seen_wins_witness :
  let st := (alloc (mkCodeNode "p" "package" "." [] [] [] "" "") (mkState [] ∅)).2 in
  let st1 := registerDecl ".:p" "a.go" 0 st (DFunc funcInit) in
  let st2 := registerDecl ".:p" "b.go" 0 st1 (DFunc funcInit) in
  ∃ p1 p2, p1 ≠ p2
    ∧ allNodes st1 !! ".:p:init" = Some p1
    ∧ heap st1 !! p1 = Some (processFunction funcInit "a.go")
    ∧ allNodes st2 !! ".:p:init" = Some p2
    ∧ heap st2 !! p2 = Some (processFunction funcInit "b.go").
Proof.
  intros st.
  apply (registry_last_seen_wins ".:p" ".:p" "a.go" "b.go" ".:p:init" 0 0
           (DFunc funcInit) (DFunc funcInit) _ _ st).
  - exact (declares_func ".:p" "a.go" funcInit).
  - exact (declares_func ".:p" "b.go" funcInit).
  - simpl. lia.
  - simpl. lia.
Defined.

(** C1, as stated, fails: two files of package [p] both declare [init]; after
    the extraction the entry of the key is the node of the second file, and
    the node of the first file is no longer registered. *)
Lemma registry_first_seen_overwritten :
  let st := (buildProjectStructure "repo"
               [("a.go", Some fileInit); ("b.go", Some fileInit)] (mkState [] ∅)).2 in
  FilePath <$> heap st !! 2 = Some "a.go"
  ∧ FilePath <$> heap st !! 3 = Some "b.go"
  ∧ allNodes st !! ".:p:init" = Some 3
  ∧ allNodes st !! ".:p:init" ≠ Some 2.
Proof. vm_compute. repeat split. discriminate. Qed.

(** ** The call graph *)

(** C6.  An edge needs both endpoints in the registry: when the key of the
    caller or the key of the callee is not registered, the insertion leaves
    the store as it is, and so does the visit of a call expression whose
    enclosing function or resolved callee is not registered. *)
Theorem edge_requires_both_endpoints (st : State) :
  (∀ callerKey calleeKey,
     allNodes st !! callerKey = None ∨ allNodes st !! calleeKey = None →
     establishRelationship callerKey calleeKey st = st) ∧
  (∀ packageKey importMap callFun w callerKey,
     store w = st → currentFunc w = Some callerKey →
     allNodes st !! callerKey = None
     ∨ allNodes st !! resolveCallExpr callFun packageKey importMap = None →
     store (visitCallExpr packageKey importMap callFun w) = st).
Proof.
  assert (∀ callerKey calleeKey,
     allNodes st !! callerKey = None ∨ allNodes st !! calleeKey = None →
     establishRelationship callerKey calleeKey st = st) as Hedge.
  { intros callerKey calleeKey Habsent. unfold establishRelationship.
    destruct (allNodes st !! callerKey); [|done].
    destruct Habsent as [?| ->]; done. }
  split; [exact Hedge |].
  intros packageKey importMap callFun w callerKey <- Hcur Habsent.
  unfold visitCallExpr. rewrite Hcur. case_decide; [|done]. simpl. by apply Hedge.
Qed.

Lemma edge_requires_both_endpoints_witness :
  let st := (analyse "repo" [("a.go", Some fileAB)]).2 in
  establishRelationship ".:p:A" "lib/util:Do" st = st
  ∧ store (visitCallExpr ".:p" {["u" := "lib/util"]} (SelectorExpr (Ident "u") "Do")
             (mkWalk (Some ".:p:A") ∅ st)) = st.
Proof.
  intros st. destruct (edge_requires_both_endpoints st) as [Hedge Hvisit]. split.
  - apply Hedge. right. vm_compute. reflexivity.
  - apply (Hvisit _ _ _ _ ".:p:A"); [reflexivity | reflexivity |].
    right. vm_compute. reflexivity.
Defined.

Lemma visitCallExpr_resolved packageKey importMap callFun w callerKey calleeKey :
  currentFunc w = Some callerKey →
  resolveCallExpr callFun packageKey importMap = calleeKey → calleeKey ≠ "" →
  visitCallExpr packageKey importMap callFun w
  = mkWalk (Some callerKey) (increment calleeKey (callCounts w))
           (establishRelationship callerKey calleeKey (store w)).
Proof.
  intros Hcur Hres Hkey. unfold visitCallExpr. rewrite Hcur, Hres.
  by rewrite decide_True by done.
Qed.

Lemma visitCallExpr_unresolved packageKey importMap callFun w :
  resolveCallExpr callFun packageKey importMap = "" →
  visitCallExpr packageKey importMap callFun w = w.
Proof.
  intros Hres. unfold visitCallExpr. rewrite Hres.
  destruct (currentFunc w); [|done]. by case_decide.
Qed.

(** C3.  Edge insertion is idempotent.  For registered [a] and [b] the second
    insertion of the edge from [a] to [b] changes nothing; when the edge was
    not there before, the two insertions leave one occurrence of [b] among
    the calls of [a] and make the callers of [b] one longer; and a call
    expression visited twice leaves the store it leaves when visited once. *)
Theorem edge_insertion_idempotent (st : State) (ka kb : string) (a b : nat) :
  registryValid st →
  allNodes st !! ka = Some a → allNodes st !! kb = Some b →
  let st1 := establishRelationship ka kb st in
  let st2 := establishRelationship ka kb st1 in
  st2 = st1
  ∧ (b ∉ callsOf st a →
     count_occ Nat.eq_dec (callsOf st2 a) b = 1
     ∧ length (calledByOf st2 b) = S (length (calledByOf st b)))
  ∧ (∀ packageKey importMap callFun counts,
       resolveCallExpr callFun packageKey importMap = kb →
       let w := mkWalk (Some ka) counts st in
       store (visitCallExpr packageKey importMap callFun
                (visitCallExpr packageKey importMap callFun w))
       = store (visitCallExpr packageKey importMap callFun w)).
Proof.
  intros Hreg Ha Hb st1 st2.
  pose proof (Hreg _ _ Ha) as Hva. pose proof (Hreg _ _ Hb) as Hvb.
  assert (b ∈ callsOf st1 a) as Hin1.
  { subst st1. destruct (decide (b ∈ callsOf st a)) as [Hin|Hnew].
    - by rewrite (establishRelationship_present st ka kb a b).
    - rewrite (establishRelationship_fresh st ka kb a b) by done.
      rewrite callsOf_appendCalledBy, callsOf_appendCall by done.
      rewrite decide_True by done. apply elem_of_app. right. by apply list_elem_of_singleton. }
  assert (st2 = st1) as Hsame.
  { subst st2. apply (establishRelationship_present st1 ka kb a b); [| |done];
      subst st1; by rewrite allNodes_establishRelationship. }
  split; [exact Hsame |]. split.
  - intros Hnew. rewrite Hsame. subst st1.
    rewrite (establishRelationship_fresh st ka kb a b) by done.
    rewrite callsOf_appendCalledBy, callsOf_appendCall by done.
    rewrite calledByOf_appendCalledBy
      by (unfold appendCall; simpl; by rewrite length_alter).
    rewrite !decide_True by done. rewrite calledByOf_appendCall. split.
    + rewrite count_occ_app. simpl. destruct (Nat.eq_dec b b); [|done].
      assert (count_occ Nat.eq_dec (callsOf st a) b = 0) as ->; [|done].
      apply count_occ_not_In. by rewrite <- list_elem_of_In.
    + rewrite length_app. simpl. lia.
  - intros packageKey importMap callFun counts Hres w. subst w.
    destruct (decide (kb = "")) as [Hempty|Hkey].
    + subst kb. by rewrite !visitCallExpr_unresolved.
    + rewrite (visitCallExpr_resolved packageKey importMap callFun
                 (mkWalk (Some ka) counts st) ka kb eq_refl Hres Hkey).
      rewrite (visitCallExpr_resolved packageKey importMap callFun
                 (mkWalk (Some ka) _ _) ka kb eq_refl Hres Hkey).
      exact Hsame.
Qed.

Lemma storeOk_buildProjectStructure repoName units st :
  storeOk st → storeOk (buildProjectStructure repoName units st).2.
Proof.
  intros Hst. unfold buildProjectStructure. simpl.
  set (root := length (heap st)).
  assert (∀ ps : gmap string nat * State, storeOk ps.2 →
            storeOk (foldl (λ ps (u : SourceUnit), processGoFile u.1 u.2 root ps)
                           ps units).2) as Hfold.
  { induction units as [|u units IH]; intros [packages st'] Hst'; simpl; [done |].
    apply IH. by apply storeOk_processGoFile. }
  apply Hfold. simpl. by apply (storeOk_alloc (mkCodeNode _ _ _ _ _ _ _ _)).
Qed.

Lemma storeOk_analyzeFunctionCalls units st :
  storeOk st → storeOk (analyzeFunctionCalls units st).2.
Proof.
  intros Hst. unfold analyzeFunctionCalls.
  assert (∀ cs : gmap string nat * State, storeOk cs.2 →
            storeOk (foldl (λ cs (u : SourceUnit), analyzeFile u.1 u.2 cs) cs units).2)
    as Hfold.
  { induction units as [|u units IH]; intros [cc st'] Hst'; simpl; [done |].
    apply IH. by apply storeOk_analyzeFile. }
  by apply Hfold.
Qed.

Lemma storeOk_step w op : storeOk (world w) → storeOk (world (step w op)).
Proof.
  intros Hw. destruct op as [relPath file|relPath file]; simpl.
  - by apply storeOk_processGoFile.
  - by apply storeOk_analyzeFile.
Qed.

Lemma storeOk_run repoName ops : storeOk (world (run repoName ops)).
Proof.
  unfold run.
  assert (storeOk (world (initialWorld repoName))) as Hinit.
  { unfold initialWorld. simpl.
    apply (storeOk_alloc (mkCodeNode _ _ _ _ _ _ _ _) (mkState [] ∅)); [done..|].
    apply storeOk_empty. }
  revert Hinit. generalize (initialWorld repoName).
  induction ops as [|op ops IH]; intros w Hw; simpl; [done |].
  by apply IH, storeOk_step.
Qed.

(** After any run no edge is recorded twice. *)
Lemma edges_recorded_once repoName ops d :
  NoDup (callsOf (world (run repoName ops)) d)
  ∧ NoDup (calledByOf (world (run repoName ops)) d).
Proof. destruct (storeOk_run repoName ops) as (_ & _ & Honce). apply Honce. Qed.

(** The program itself is the run that extracts every file and then resolves
    every file. *)
Lemma foldl_step_Extract units : ∀ w,
  foldl step w ((λ u : SourceUnit, Extract u.1 u.2) <$> units)
  = let ps := foldl (λ ps (u : SourceUnit), processGoFile u.1 u.2 (codeRoot w) ps)
                    (packages w, world w) units in
    mkWorld (codeRoot w) ps.1 (counts w) ps.2.
Proof.
  induction units as [|u units IH]; intros w; csimpl; [by destruct w |].
  rewrite IH. simpl. by destruct (processGoFile _ _ _ _).
Qed.

Lemma foldl_step_Resolve units : ∀ w,
  foldl step w ((λ u : SourceUnit, Resolve u.1 u.2) <$> units)
  = let cs := foldl (λ cs (u : SourceUnit), analyzeFile u.1 u.2 cs)
                    (counts w, world w) units in
    mkWorld (codeRoot w) (packages w) cs.1 cs.2.
Proof.
  induction units as [|u units IH]; intros w; csimpl; [by destruct w |].
  rewrite IH. simpl. by destruct (analyzeFile _ _ _).
Qed.

Lemma analyse_run repoName units :
  let w := run repoName (((λ u : SourceUnit, Extract u.1 u.2) <$> units)
                         ++ ((λ u : SourceUnit, Resolve u.1 u.2) <$> units)) in
  analyse repoName units = (codeRoot w, counts w, world w).
Proof.
  unfold run. rewrite foldl_app, foldl_step_Extract, foldl_step_Resolve.
  unfold analyse, buildProjectStructure, analyzeFunctionCalls, initialWorld. simpl.
  by destruct (foldl _ _ units).
Qed.

Lemma edge_insertion_idempotent_witness :
  let st := (buildProjectStructure "repo" [("a.go", Some fileAB)] (mkState [] ∅)).2 in
  let st1 := establishRelationship ".:p:A" ".:p:B" st in
  let st2 := establishRelationship ".:p:A" ".:p:B" st1 in
  st2 = st1
  ∧ count_occ Nat.eq_dec (callsOf st2 2) 3 = 1
  ∧ length (calledByOf st2 3) = S (length (calledByOf st 3)).
Proof.
  intros st.
  destruct (edge_insertion_idempotent st ".:p:A" ".:p:B" 2 3) as (Hsame & Hfresh & _).
  - apply storeOk_buildProjectStructure, storeOk_empty.
  - vm_compute. reflexivity.
  - vm_compute. reflexivity.
  - split; [exact Hsame |]. apply Hfresh. vm_compute. intros Hin.
    by apply elem_of_nil in Hin.
Defined.

(** C4.  After any sequence of extractions and resolutions the two edge lists
    mirror each other: every node among the calls of [d] exists and has [d]
    among its callers, and every node among the callers of [d] exists and
    has [d] among its calls. *)
Theorem calls_calledBy_symmetric (repoName : string) (ops : list Op)
    (d : nat) (nodeD : CodeNode) :
  let st := world (run repoName ops) in
  heap st !! d = Some nodeD →
  (∀ e, e ∈ Calls nodeD → ∃ nodeE, heap st !! e = Some nodeE ∧ d ∈ CalledBy nodeE)
  ∧ (∀ e, e ∈ CalledBy nodeD → ∃ nodeE, heap st !! e = Some nodeE ∧ d ∈ Calls nodeE).
Proof.
  intros st Hd. destruct (storeOk_run repoName ops) as (_ & Hsym & _). fold st in Hsym.
  split; intros e He.
  - assert (d ∈ calledByOf st e) as Hin.
    { apply Hsym. unfold callsOf. by rewrite Hd. }
    unfold calledByOf in Hin. destruct (heap st !! e) as [nodeE|]; simpl in Hin.
    + by exists nodeE.
    + by apply elem_of_nil in Hin.
  - assert (d ∈ callsOf st e) as Hin.
    { apply Hsym. unfold calledByOf. by rewrite Hd. }
    unfold callsOf in Hin. destruct (heap st !! e) as [nodeE|]; simpl in Hin.
    + by exists nodeE.
    + by apply elem_of_nil in Hin.
Qed.

Lemma calls_calledBy_symmetric_witness :
  let st := world (run "repo" [Extract "a.go" (Some fileAB); Resolve "a.go" (Some fileAB)]) in
  let nodeA := mkCodeNode "A" "function" "a.go" [] [] [3] "" "" in
  heap st !! 2 = Some nodeA
  ∧ (∀ e, e ∈ Calls nodeA → ∃ nodeE, heap st !! e = Some nodeE ∧ 2 ∈ CalledBy nodeE)
  ∧ (∀ e, e ∈ CalledBy nodeA → ∃ nodeE, heap st !! e = Some nodeE ∧ 2 ∈ Calls nodeE).
Proof.
  intros st nodeA.
  assert (heap st !! 2 = Some nodeA) as Hd by (vm_compute; reflexivity).
  split; [exact Hd |].
  exact (calls_calledBy_symmetric "repo"
           [Extract "a.go" (Some fileAB); Resolve "a.go" (Some fileAB)] 2 nodeA Hd).
Defined.

(** ** Parse failures *)

Lemma foldl_skip {A B} (f : A → B → A) (x : B) (l1 l2 : list B) (a : A) :
  (∀ a, f a x = a) → foldl f a (l1 ++ x :: l2) = foldl f a (l1 ++ l2).
Proof. intros Hx. rewrite !foldl_app. simpl. by rewrite Hx. Qed.

(** C8.  A file that does not parse changes nothing: neither its extraction
    nor its resolution touches the registry, the heap, the package map or
    the call counts, and a batch with such a file anywhere in it yields the
    model of the batch without it. *)
Theorem parse_failure_isolated (relPath : string) :
  (∀ root ps, processGoFile relPath None root ps = ps)
  ∧ (∀ cs, analyzeFile relPath None cs = cs)
  ∧ (∀ repoName units1 units2,
       analyse repoName (units1 ++ (relPath, None) :: units2)
       = analyse repoName (units1 ++ units2)).
Proof.
  split; [done |]. split; [done |].
  intros repoName units1 units2. unfold analyse, buildProjectStructure, analyzeFunctionCalls.
  simpl. by rewrite !foldl_skip.
Qed.

(** ** Calls outside function bodies *)

(** Before the first function declaration of a file the visitor skips every
    call expression. *)
Lemma package_level_call_before_functions_skipped packageKey importMap counts st specs :
  inspectDecl packageKey importMap (mkWalk None counts st) (DGen specs)
  = mkWalk None counts st.
Proof.
  simpl. by apply (inspectSpecs_keeps _ _ (λ w, w = mkWalk None counts st)); [intros ? ? ->|].
Qed.

(** C9 does not hold after the first function declaration of a file:
    [currentFunc] is set on entering a function and never reset on leaving
    it, so the initializer [var v = B()] that follows [func A() {}] is
    counted as a call and recorded as an edge from [A] to [B]. *)
Lemma package_level_call_after_function_is_recorded :
  let '(_, callCounts, st) := analyse "repo" [("a.go", Some fileInitializer)] in
  allNodes st !! ".:p:A" = Some 2
  ∧ allNodes st !! ".:p:B" = Some 3
  ∧ callCounts !! ".:p:B" = Some 1
  ∧ callsOf st 2 = [3]
  ∧ calledByOf st 3 = [2].
Proof. vm_compute. repeat split. Qed.

(** ** The table of most called functions *)

Section ranking.
Implicit Types (x y : FunctionCallCount) (l : list FunctionCallCount).

Lemma lessCount_false x y : lessCount y x = false ↔ y.2 ≤ x.2.
Proof. unfold lessCount. rewrite Nat.ltb_ge. done. Qed.

Lemma insertLeft_perm {A} (less : A → A → bool) (a : A) (acc : list A) :
  insertLeft less a acc ≡ₚ a :: acc.
Proof.
  induction acc as [|b acc IH]; simpl; [done |].
  destruct (less a b); [|done]. rewrite IH. apply perm_swap.
Qed.

Lemma insertionSort_perm {A} (less : A → A → bool) (l : list A) :
  insertionSort less l ≡ₚ l.
Proof.
  unfold insertionSort. rewrite reverse_Permutation.
  assert (∀ acc, foldl (λ revPrefix a, insertLeft less a revPrefix) acc l ≡ₚ l ++ acc)
    as Hfold.
  { induction l as [|a l IH]; intros acc; simpl; [done |].
    rewrite IH, insertLeft_perm. by rewrite Permutation_middle. }
  rewrite Hfold. by rewrite app_nil_r.
Qed.

(** The reversed prefix is kept in non-decreasing order of count. *)
Lemma insertLeft_sorted x acc :
  StronglySorted (λ u v, u.2 ≤ v.2) acc →
  StronglySorted (λ u v, u.2 ≤ v.2) (insertLeft lessCount x acc).
Proof.
  induction 1 as [|y acc Hacc IH Hy]; simpl.
  - repeat constructor.
  - destruct (lessCount x y) eqn:Hless.
    + apply Nat.ltb_lt in Hless. constructor; [exact IH |].
      rewrite (insertLeft_perm lessCount x acc). constructor; [lia | exact Hy].
    + apply lessCount_false in Hless. constructor; [by constructor |].
      constructor; [exact Hless |].
      eapply Forall_impl; [exact Hy |]. simpl. intros; lia.
Qed.

Lemma StronglySorted_reverse {A} (R R' : relation A) (l : list A) :
  (∀ u v, R u v → R' v u) →
  StronglySorted R l → StronglySorted R' (reverse l).
Proof.
  intros Hflip. induction 1 as [|a l Hl IH Ha]; [constructor |].
  rewrite reverse_cons. apply StronglySorted_app_2; [|exact IH | repeat constructor].
  intros u v Hu Hv. apply list_elem_of_singleton in Hv as ->.
  rewrite elem_of_reverse in Hu. rewrite Forall_forall in Ha. by apply Hflip, Ha.
Qed.

Lemma insertionSort_sortsByCount : sortsByCount (@insertionSort FunctionCallCount).
Proof.
  intros l. split; [apply insertionSort_perm |].
  unfold insertionSort.
  assert (∀ acc, StronglySorted (λ u v, u.2 ≤ v.2) acc →
            StronglySorted (λ u v, u.2 ≤ v.2)
              (foldl (λ revPrefix x, insertLeft lessCount x revPrefix) acc l)) as Hfold.
  { induction l as [|x l IH]; intros acc Hacc; simpl; [done |].
    by apply IH, insertLeft_sorted. }
  specialize (Hfold [] (SSorted_nil _)). revert Hfold.
  apply StronglySorted_reverse. intros u v Huv. by apply lessCount_false.
Qed.

Lemma StronglySorted_omap {A B} (R : relation A) (R' : relation B)
    (f : A → option B) (l : list A) :
  (∀ a b a' b', R a b → f a = Some a' → f b = Some b' → R' a' b') →
  StronglySorted R l → StronglySorted R' (omap f l).
Proof.
  intros Hf. induction 1 as [|a l Hl IH Ha]; simpl; [constructor |].
  destruct (f a) as [a'|] eqn:Hfa; [|exact IH].
  constructor; [exact IH |].
  apply Forall_forall. intros b' Hb'.
  apply list_elem_of_omap in Hb' as (b & Hb & Hfb).
  rewrite Forall_forall in Ha. eauto.
Qed.

Lemma rowCount_mostCalledRow st x r : mostCalledRow st x = Some r → rowCount r = x.2.
Proof.
  unfold mostCalledRow. destruct (allNodes st !! x.1); [|done].
  destruct (heap st !! _); [|done]. by intros [= <-].
Qed.

Lemma mostCalled_rows sortSlice st callCounts order :
  sortsByCount sortSlice → iterationOrder callCounts order →
  let rows := addMostCalledFunctionsToOutput sortSlice st order in
  StronglySorted (λ r1 r2, rowCount r2 ≤ rowCount r1) rows
  ∧ rows ≡ₚ omap (mostCalledRow st) (map_to_list callCounts).
Proof.
  intros Hsort Horder rows. subst rows. unfold addMostCalledFunctionsToOutput.
  destruct (Hsort order) as [Hperm Hsorted]. split.
  - revert Hsorted. apply StronglySorted_omap.
    intros a b a' b' Hab Ha Hb. apply lessCount_false in Hab.
    by rewrite (rowCount_mostCalledRow _ _ _ Ha), (rowCount_mostCalledRow _ _ _ Hb).
  - unfold iterationOrder in Horder. by rewrite Hperm, Horder.
Qed.

(** C2, as the code has it.  For a sort that meets the contract of
    [sort.Slice] and any order in which the map of call counts is walked,
    the rows of the table are the registered entries of the map, in
    non-increasing order of call count; two runs over the same map give the
    same rows up to order and the same sequence of counts.  The order among
    rows with equal counts is not part of the statement. *)
Theorem mostCalled_sorted_by_count sortSlice (st : State) (callCounts : gmap string nat) :
  sortsByCount sortSlice →
  (∀ order, iterationOrder callCounts order →
     let rows := addMostCalledFunctionsToOutput sortSlice st order in
     StronglySorted (λ r1 r2, rowCount r2 ≤ rowCount r1) rows
     ∧ rows ≡ₚ omap (mostCalledRow st) (map_to_list callCounts))
  ∧ (∀ order1 order2,
       iterationOrder callCounts order1 → iterationOrder callCounts order2 →
       addMostCalledFunctionsToOutput sortSlice st order1
       ≡ₚ addMostCalledFunctionsToOutput sortSlice st order2
       ∧ rowCount <$> addMostCalledFunctionsToOutput sortSlice st order1
         = rowCount <$> addMostCalledFunctionsToOutput sortSlice st order2).
Proof.
  intros Hsort. split; [intros order Horder; by apply mostCalled_rows |].
  intros order1 order2 H1 H2.
  destruct (mostCalled_rows sortSlice st callCounts order1 Hsort H1) as [Hs1 Hp1].
  destruct (mostCalled_rows sortSlice st callCounts order2 Hsort H2) as [Hs2 Hp2].
  assert (addMostCalledFunctionsToOutput sortSlice st order1
          ≡ₚ addMostCalledFunctionsToOutput sortSlice st order2) as Hperm
    by (by rewrite Hp1, Hp2).
  split; [exact Hperm |].
  apply (StronglySorted_unique_strong (λ n1 n2 : nat, n2 ≤ n1)).
  - intros; lia.
  - by apply (StronglySorted_fmap _ (λ r1 r2, rowCount r2 ≤ rowCount r1)).
  - by apply (StronglySorted_fmap _ (λ r1 r2, rowCount r2 ≤ rowCount r1)).
  - by rewrite Hperm.
Qed.

Lemma mostCalled_sorted_by_count_witness :
  let result := analyse "repo" [("a.go", Some fileTie)] in
  let callCounts := result.1.2 in
  let st := result.2 in
  let rows := addMostCalledFunctionsToOutput (@insertionSort _) st
                (map_to_list callCounts) in
  StronglySorted (λ r1 r2, rowCount r2 ≤ rowCount r1) rows
  ∧ rows ≡ₚ omap (mostCalledRow st) (map_to_list callCounts).
Proof.
  intros result callCounts st.
  destruct (mostCalled_sorted_by_count (@insertionSort _) st callCounts
              insertionSort_sortsByCount) as [Hrows _].
  apply Hrows. unfold iterationOrder. reflexivity.
Defined.

(** C2, as stated, fails.  [C] calls [A] and [B] once each, so both have
    count 1.  The loop over the map may meet [A] first or [B] first, and the
    sort keeps equal counts in the order it receives them: the two runs
    print the rows in different orders, and the second puts [B] before [A]
    although [A] was discovered first. *)
Lemma mostCalled_order_depends_on_iteration :
  let '(_, callCounts, st) := analyse "repo" [("a.go", Some fileTie)] in
  let order1 := [(".:p:A", 1); (".:p:B", 1)] in
  let order2 := [(".:p:B", 1); (".:p:A", 1)] in
  iterationOrder callCounts order1
  ∧ iterationOrder callCounts order2
  ∧ addMostCalledFunctionsToOutput (@insertionSort _) st order1
    = [("A", "function", "a.go", 1); ("B", "function", "a.go", 1)]
  ∧ addMostCalledFunctionsToOutput (@insertionSort _) st order2
    = [("B", "function", "a.go", 1); ("A", "function", "a.go", 1)].
Proof.
  vm_compute. repeat split; first [reflexivity | apply perm_swap].
Qed.

End ranking.

(** ** The directory tree *)

Module DirTreeFacts.
Import DirTree.

Lemma Name_addParts parts isDir current :
  Name (addParts parts isDir current) = Name current.
Proof. by destruct parts. Qed.

Section into_child.
Variables (part : string) (continue_ : TreeNode → TreeNode) (newNode : TreeNode).
Hypothesis continue_Name : ∀ child, Name (continue_ child) = Name child.
Hypothesis newNode_Name : Name newNode = part.

Lemma Name_intoChild children :
  Name <$> intoChild part continue_ newNode children
  = if decide (part ∈ Name <$> children) then Name <$> children
    else (Name <$> children) ++ [part].
Proof.
  induction children as [|child others IH]; csimpl.
  - by rewrite newNode_Name.
  - destruct (String.eqb_spec (Name child) part) as [Heq|Hne]; csimpl.
    + rewrite continue_Name. rewrite decide_True; [done |]. rewrite Heq. by left.
    + rewrite IH. destruct (decide (part ∈ Name <$> others)) as [Hin|Hout].
      * rewrite decide_True; [done | by right].
      * rewrite decide_False; [done |]. intros Hin. by inv Hin.
Qed.

Lemma NoDup_intoChild children :
  NoDup (Name <$> children) →
  NoDup (Name <$> intoChild part continue_ newNode children).
Proof.
  intros Hnodup. rewrite Name_intoChild. case_decide as Hin; [done |].
  apply NoDup_app. split; [done |]. split; [|apply NoDup_singleton].
  intros name Hname Hpart. apply list_elem_of_singleton in Hpart as ->. done.
Qed.

Lemma Forall_intoChild (P : TreeNode → Prop) children :
  (∀ child, P child → P (continue_ child)) → P newNode →
  Forall P children → Forall P (intoChild part continue_ newNode children).
Proof.
  intros Hcont Hnew. induction 1 as [|child others Hchild Hothers IH]; simpl.
  - by constructor.
  - destruct (String.eqb (Name child) part); constructor; auto.
Qed.

(** Once the part is below the node, a second search finds it where the
    first search found or put it. *)
Lemma intoChild_again children newNode' :
  (∀ child, continue_ (continue_ child) = continue_ child) →
  continue_ newNode = newNode →
  intoChild part continue_ newNode' (intoChild part continue_ newNode children)
  = intoChild part continue_ newNode children.
Proof.
  intros Hidem Hnew. induction children as [|child others IH]; simpl.
  - rewrite newNode_Name, String.eqb_refl. by rewrite Hnew.
  - destruct (String.eqb (Name child) part) eqn:Heq; simpl.
    + rewrite continue_Name, Heq. by rewrite Hidem.
    + rewrite Heq. by rewrite IH.
Qed.

End into_child.

Lemma distinctNames_leaf name isDir : distinctNames (mkTreeNode name isDir []).
Proof. constructor; [apply NoDup_nil_2 | constructor]. Qed.

Lemma distinctNames_addParts parts isDir : ∀ current,
  distinctNames current → distinctNames (addParts parts isDir current).
Proof.
  induction parts as [|part rest IH]; intros current Hcur; simpl; [done |].
  destruct Hcur as [name dir children Hnodup Hall]. simpl. constructor.
  - apply NoDup_intoChild; [intros; apply Name_addParts | by rewrite Name_addParts | done].
  - apply Forall_intoChild; [exact IH | apply IH, distinctNames_leaf | done].
Qed.

Lemma addParts_again parts isDir : ∀ current,
  addParts parts isDir (addParts parts isDir current) = addParts parts isDir current.
Proof.
  induction parts as [|part rest IH]; intros current; simpl; [done |].
  f_equal. apply intoChild_again; [intros; apply Name_addParts | | exact IH | apply IH].
  by rewrite Name_addParts.
Qed.

(** C10.  From a root without children, any sequence of insertions yields a
    tree in which the children of every node have pairwise distinct names;
    and inserting a path a second time with the same flag gives back the
    tree of the first insertion. *)
Theorem addNodeToTree_distinct_and_idempotent :
  (∀ rootName (insertions : list (string * bool)),
     distinctNames (foldl (λ root i, addNodeToTree root i.1 i.2)
                          (mkTreeNode rootName true []) insertions))
  ∧ (∀ root path isDir,
       addNodeToTree (addNodeToTree root path isDir) path isDir
       = addNodeToTree root path isDir).
Proof.
  split.
  - intros rootName insertions.
    assert (∀ root, distinctNames root →
              distinctNames (foldl (λ root i, addNodeToTree root i.1 i.2) root insertions))
      as Hfold.
    { induction insertions as [|i insertions IH]; intros root Hroot; simpl; [done |].
      by apply IH, distinctNames_addParts. }
    apply Hfold, distinctNames_leaf.
  - intros root path isDir. apply addParts_again.
Qed.

End DirTreeFacts.

(** ** The scenarios of the specification, run on the model *)

(** Package [p] declares [func A() { B() }] and [func B() {}]: the edge from
    [A] to [B] is there and [B] has one caller. *)
Example scenario_bare_call :
  let st := (analyse "repo" [("p/a.go", Some fileAB)]).2 in
  allNodes st !! "p:p:A" = Some 2 ∧ allNodes st !! "p:p:B" = Some 3
  ∧ callsOf st 2 = [3] ∧ calledByOf st 3 = [2].
Proof. vm_compute. repeat split. Qed.

(** A call through the import alias [u] of [lib/util] resolves to the key
    [lib/util:Do]; nothing is registered under it, so no edge appears. *)
Example scenario_aliased_import :
  let file := mkFile "p" [(Some "u", String dquote ("lib/util" +:+ String dquote ""))]
                [DFunc (mkFuncDecl None "A" [] [CallExpr (SelectorExpr (Ident "u") "Do") []])] in
  let result := analyse "repo" [("a.go", Some file)] in
  buildImportMap file !! "u" = Some "lib/util"
  ∧ result.1.2 !! "lib/util:Do" = Some 1
  ∧ callsOf result.2 2 = [].
Proof. vm_compute. repeat split. Qed.

Example scenario_directory_tree :
  DirTree.addNodeToTree
    (DirTree.addNodeToTree (DirTree.mkTreeNode "repo" true []) "a/b.go" false)
    "a/c.go" false
  = DirTree.mkTreeNode "repo" true
      [DirTree.mkTreeNode "a" true
         [DirTree.mkTreeNode "b.go" false []; DirTree.mkTreeNode "c.go" false []]].
Proof. reflexivity. Qed.

(** * Further properties of the analyser *)

Set Warnings "-clear-no-such-hyp".

(** ** The traversal as a sequence of call sites *)

Section call_sites.
Variables (packageKey : string) (importMap : gmap string string).

Lemma foldl_flat_map {A B C} (f : A → B → A) (g : C → list B) (l : list C) : ∀ a,
  foldl f a (flat_map g l) = foldl (λ a c, foldl f a (g c)) a l.
Proof. induction l as [|c l IH]; intros a; simpl; [done |]. by rewrite foldl_app, IH. Qed.

Lemma inspectExpr_callsIn : ∀ e w,
  inspectExpr packageKey importMap e w
  = foldl (λ w callFun, visitCallExpr packageKey importMap callFun w) w (callsIn e).
Proof.
  assert (∀ es, Forall (λ e, ∀ w, inspectExpr packageKey importMap e w
             = foldl (λ w callFun, visitCallExpr packageKey importMap callFun w) w
                     (callsIn e)) es →
          ∀ w, foldl (λ w e, inspectExpr packageKey importMap e w) w es
               = foldl (λ w callFun, visitCallExpr packageKey importMap callFun w) w
                       (flat_map callsIn es)) as Hlist.
  { induction 1 as [|e es He _ IH]; intros w; simpl; [done |].
    by rewrite foldl_app, <- He, IH. }
  intros e. induction e using Expr_nested_ind; intros w; simpl; auto.
  - by rewrite foldl_app, <- IHe1, <- IHe2.
  - rewrite foldl_app, <- IHe. by apply Hlist.
Qed.

Lemma inspectList_callsIn es w :
  inspectList packageKey importMap w es
  = foldl (λ w callFun, visitCallExpr packageKey importMap callFun w) w
          (flat_map callsIn es).
Proof.
  unfold inspectList. rewrite foldl_flat_map. revert w.
  induction es as [|e es IH]; intros w; simpl; [done |].
  by rewrite inspectExpr_callsIn, IH.
Qed.

Lemma inspectDecl_events decl w :
  inspectDecl packageKey importMap w decl
  = foldl (visitEvent packageKey importMap) w (eventsOfDecl decl).
Proof.
  destruct decl as [d|specs]; simpl.
  - rewrite foldl_fmap, !foldl_app, !inspectList_callsIn. done.
  - rewrite foldl_fmap, foldl_flat_map. revert w.
    induction specs as [|spec specs IH]; intros w; simpl; [done |].
    rewrite IH. f_equal. destruct spec; simpl; [done | |].
    + apply inspectList_callsIn.
    + apply inspectExpr_callsIn.
Qed.

Lemma inspectDecls_events decls : ∀ w,
  foldl (inspectDecl packageKey importMap) w decls
  = foldl (visitEvent packageKey importMap) w (flat_map eventsOfDecl decls).
Proof.
  induction decls as [|decl decls IH]; intros w; simpl; [done |].
  by rewrite foldl_app, <- inspectDecl_events, IH.
Qed.

Lemma visitEvents_resolvedCalls events : ∀ w,
  let calls := resolvedCalls packageKey importMap (currentFunc w) events in
  let w' := foldl (visitEvent packageKey importMap) w events in
  callCounts w' = countCalls (callCounts w) calls
  ∧ store w' = linkCalls (store w) calls.
Proof.
  induction events as [|ev events IH]; intros w; simpl; [done |].
  destruct ev as [d|callFun]; simpl.
  - apply (IH (visitFuncDecl packageKey d w)).
  - specialize (IH (visitCallExpr packageKey importMap callFun w)).
    unfold visitCallExpr in *. destruct (currentFunc w) as [cur|] eqn:Hcur.
    + case_decide; simpl in *; [exact IH |]. rewrite Hcur in IH. exact IH.
    + rewrite Hcur in IH. exact IH.
Qed.

End call_sites.

Lemma analyzeFile_calls relPath file counts st :
  analyzeFile relPath file (counts, st)
  = (countCalls counts (fileCalls relPath file), linkCalls st (fileCalls relPath file)).
Proof.
  destruct file as [file|]; [|done]. unfold analyzeFile, fileCalls.
  rewrite inspectDecls_events. simpl.
  destruct (visitEvents_resolvedCalls
              (mkPackageKey (filepathDir relPath) (PkgName file)) (buildImportMap file)
              (flat_map eventsOfDecl (Decls file)) (mkWalk None counts st)) as [-> ->].
  done.
Qed.

Lemma countCalls_app counts calls1 calls2 :
  countCalls counts (calls1 ++ calls2) = countCalls (countCalls counts calls1) calls2.
Proof. apply foldl_app. Qed.

Lemma linkCalls_app st calls1 calls2 :
  linkCalls st (calls1 ++ calls2) = linkCalls (linkCalls st calls1) calls2.
Proof. apply foldl_app. Qed.

Lemma analyzeFiles_calls units : ∀ counts st,
  foldl (λ cs (u : SourceUnit), analyzeFile u.1 u.2 cs) (counts, st) units
  = (countCalls counts (unitsCalls units), linkCalls st (unitsCalls units)).
Proof.
  induction units as [|u units IH]; intros counts st; simpl; [done |].
  rewrite analyzeFile_calls, IH. unfold unitsCalls. simpl.
  by rewrite countCalls_app, linkCalls_app.
Qed.

Lemma analyzeFunctionCalls_calls units st :
  analyzeFunctionCalls units st
  = (countCalls ∅ (unitsCalls units), linkCalls st (unitsCalls units)).
Proof. apply analyzeFiles_calls. Qed.

(** ** Call counts *)

Lemma increment_lookup key key' counts :
  default 0 (increment key counts !! key')
  = default 0 (counts !! key') + (if decide (key = key') then 1 else 0).
Proof.
  unfold increment. rewrite lookup_insert. case_decide; subst; simpl; lia.
Qed.

Lemma increment_comm key1 key2 counts :
  increment key1 (increment key2 counts) = increment key2 (increment key1 counts).
Proof.
  destruct (decide (key1 = key2)) as [->|Hne]; [done |].
  unfold increment. rewrite !lookup_insert_ne by done. by apply insert_insert_ne.
Qed.


Lemma countCalls_Permutation calls1 calls2 :
  calls1 ≡ₚ calls2 → ∀ counts, countCalls counts calls1 = countCalls counts calls2.
Proof.
  unfold countCalls.
  induction 1 as [|call ? ? _ IH|call1 call2 calls|? ? ? _ IH1 _ IH2]; intros counts; simpl.
  - done.
  - apply IH.
  - by rewrite increment_comm.
  - by rewrite IH1, IH2.
Qed.

Lemma unitsCalls_Permutation units1 units2 :
  units1 ≡ₚ units2 → unitsCalls units1 ≡ₚ unitsCalls units2.
Proof.
  unfold unitsCalls.
  induction 1 as [|u ? ? _ IH|u1 u2 units|? ? ? _ IH1 _ IH2]; simpl.
  - done.
  - by rewrite IH.
  - rewrite !app_assoc. f_equiv. apply Permutation_app_comm.
  - by rewrite IH1, IH2.
Qed.

Lemma countCalls_present calls : ∀ counts,
  (∀ key n, counts !! key = Some n → key ≠ "" ∧ 0 < n) →
  Forall (λ call, call.2 ≠ "") calls →
  ∀ key n, countCalls counts calls !! key = Some n → key ≠ "" ∧ 0 < n.
Proof.
  unfold countCalls.
  induction calls as [|call calls IH]; intros counts Hcounts Hcalls; simpl; [done |].
  inv Hcalls. apply IH; [|done].
  intros key n. unfold increment. rewrite lookup_insert. case_decide.
  - intros [= <-]. subst. split; [done | lia].
  - apply Hcounts.
Qed.

Lemma resolvedCalls_resolved packageKey importMap events : ∀ current,
  Forall (λ call : string * string, call.2 ≠ "")
         (resolvedCalls packageKey importMap current events).
Proof.
  induction events as [|[d|callFun] events IH]; intros current; simpl; auto.
  destruct current; [|done]. case_decide; [|done]. by constructor.
Qed.

Lemma unitsCalls_resolved units :
  Forall (λ call : string * string, call.2 ≠ "") (unitsCalls units).
Proof.
  unfold unitsCalls. induction units as [|[relPath [file|]] units IH]; simpl; auto.
  apply Forall_app. split; [apply resolvedCalls_resolved | done].
Qed.

(** ** Edges *)

Lemma registryValid_establishRelationship ka kb st :
  registryValid st → registryValid (establishRelationship ka kb st).
Proof.
  intros Hreg key p.
  rewrite allNodes_establishRelationship, length_heap_establishRelationship. apply Hreg.
Qed.

Lemma allNodes_linkCalls calls : ∀ st, allNodes (linkCalls st calls) = allNodes st.
Proof.
  unfold linkCalls. induction calls as [|call calls IH]; intros st; simpl; [done |].
  by rewrite IH, allNodes_establishRelationship.
Qed.

Lemma length_heap_linkCalls calls : ∀ st,
  length (heap (linkCalls st calls)) = length (heap st).
Proof.
  unfold linkCalls. induction calls as [|call calls IH]; intros st; simpl; [done |].
  by rewrite IH, length_heap_establishRelationship.
Qed.

Lemma registryValid_linkCalls calls st :
  registryValid st → registryValid (linkCalls st calls).
Proof. intros Hreg key p. rewrite allNodes_linkCalls, length_heap_linkCalls. apply Hreg. Qed.

Lemma hasEdge_establishRelationship st ka kb a b :
  registryValid st →
  hasEdge (establishRelationship ka kb st) a b
  ↔ hasEdge st a b ∨ (allNodes st !! ka = Some a ∧ allNodes st !! kb = Some b).
Proof.
  intros Hreg. unfold hasEdge.
  destruct (allNodes st !! ka) as [a'|] eqn:Ha;
    [|unfold establishRelationship; rewrite Ha; naive_solver].
  destruct (allNodes st !! kb) as [b'|] eqn:Hb;
    [|unfold establishRelationship; rewrite Ha, Hb; naive_solver].
  destruct (decide (b' ∈ callsOf st a')) as [Hin|Hnew].
  - rewrite (establishRelationship_present st ka kb a' b') by done. naive_solver.
  - rewrite (establishRelationship_fresh st ka kb a' b') by done.
    rewrite callsOf_appendCalledBy, callsOf_appendCall by eauto.
    case_decide; subst; rewrite ?elem_of_app, ?list_elem_of_singleton; naive_solver.
Qed.

Lemma hasEdge_linkCalls calls : ∀ st a b,
  registryValid st →
  hasEdge (linkCalls st calls) a b
  ↔ hasEdge st a b
    ∨ ∃ call, call ∈ calls
        ∧ allNodes st !! call.1 = Some a ∧ allNodes st !! call.2 = Some b.
Proof.
  unfold linkCalls.
  induction calls as [|call calls IH]; intros st a b Hreg; simpl.
  - split; [by left |]. intros [?|(call & Hin & _)]; [done |]. by apply elem_of_nil in Hin.
  - rewrite IH by by apply registryValid_establishRelationship.
    rewrite hasEdge_establishRelationship by done.
    setoid_rewrite allNodes_establishRelationship.
    setoid_rewrite elem_of_cons. naive_solver.
Qed.

(** Calls whose registered endpoints are linked already change nothing. *)
Lemma linkCalls_linked calls : ∀ st,
  (∀ call a b, call ∈ calls →
     allNodes st !! call.1 = Some a → allNodes st !! call.2 = Some b → hasEdge st a b) →
  linkCalls st calls = st.
Proof.
  unfold linkCalls.
  induction calls as [|call calls IH]; intros st Hlinked; simpl; [done |].
  assert (establishRelationship call.1 call.2 st = st) as ->.
  { unfold establishRelationship.
    destruct (allNodes st !! call.1) as [a|] eqn:Ha; [|done].
    destruct (allNodes st !! call.2) as [b|] eqn:Hb; [|done].
    assert (hasEdge st a b) as Hin by (apply (Hlinked call); [by left | done..]).
    apply functionCallExists_spec in Hin. by rewrite Hin. }
  apply IH. intros call' a b Hin. apply Hlinked. by right.
Qed.


(** X2.  Every entry of the call counts is positive and the empty key, the
    answer of the resolver for a call it cannot read, is never an entry. *)
Theorem callCounts_entries_positive (units : list SourceUnit) (st : State)
    (key : string) (n : nat) :
  (analyzeFunctionCalls units st).1 !! key = Some n → key ≠ "" ∧ 0 < n.
Proof.
  rewrite analyzeFunctionCalls_calls. simpl.
  apply countCalls_present; [|apply unitsCalls_resolved].
  intros key' n'. by rewrite lookup_empty.
Qed.

Lemma callCounts_entries_positive_witness :
  (analyzeFunctionCalls [("a.go", Some fileAB)] (mkState [] ∅)).1 !! ".:p:B" = Some 1
  ∧ ".:p:B" ≠ "" ∧ 0 < 1.
Proof.
  assert ((analyzeFunctionCalls [("a.go", Some fileAB)] (mkState [] ∅)).1 !! ".:p:B"
          = Some 1) as Hcount by (vm_compute; reflexivity).
  split; [exact Hcount |].
  exact (callCounts_entries_positive _ _ _ _ Hcount).
Defined.

Lemma hasEdge_analyzeFunctionCalls (units : list SourceUnit) (st : State) (a b : nat) :
  registryValid st →
  hasEdge (analyzeFunctionCalls units st).2 a b
  ↔ hasEdge st a b
    ∨ ∃ call, call ∈ unitsCalls units
        ∧ allNodes st !! call.1 = Some a ∧ allNodes st !! call.2 = Some b.
Proof.
  intros Hreg. rewrite analyzeFunctionCalls_calls. simpl. by apply hasEdge_linkCalls.
Qed.



(** X4.  The order in which the files are analysed does not matter once the
    registry is fixed: two orders give the same call counts and the same
    edges, in both directions (only the order inside the lists of a node
    can differ). *)
Theorem analysis_order_independent (units1 units2 : list SourceUnit) (st : State) :
  storeOk st → units1 ≡ₚ units2 →
  let r1 := analyzeFunctionCalls units1 st in
  let r2 := analyzeFunctionCalls units2 st in
  r1.1 = r2.1
  ∧ (∀ a b, b ∈ callsOf r1.2 a ↔ b ∈ callsOf r2.2 a)
  ∧ (∀ a b, a ∈ calledByOf r1.2 b ↔ a ∈ calledByOf r2.2 b).
Proof.
  intros Hst Hperm r1 r2.
  assert (∀ a b, b ∈ callsOf r1.2 a ↔ b ∈ callsOf r2.2 a) as Hcalls.
  { intros a b. subst r1 r2.
    pose proof (hasEdge_analyzeFunctionCalls units1 st a b (proj1 Hst)) as H1.
    pose proof (hasEdge_analyzeFunctionCalls units2 st a b (proj1 Hst)) as H2.
    unfold hasEdge in *. rewrite H1, H2.
    apply unitsCalls_Permutation in Hperm. by setoid_rewrite Hperm. }
  split; [|split; [exact Hcalls |]].
  - subst r1 r2. rewrite !analyzeFunctionCalls_calls. simpl.
    by apply countCalls_Permutation, unitsCalls_Permutation.
  - intros a b.
    destruct (storeOk_analyzeFunctionCalls units1 st Hst) as (_ & Hsym1 & _).
    destruct (storeOk_analyzeFunctionCalls units2 st Hst) as (_ & Hsym2 & _).
    fold r1 in Hsym1. fold r2 in Hsym2.
    rewrite <- (Hsym1 a b), <- (Hsym2 a b). apply Hcalls.
Qed.

Lemma analysis_order_independent_witness :
  let units1 := [("a.go", Some fileAB); ("b.go", Some fileTie)] in
  let units2 := [("b.go", Some fileTie); ("a.go", Some fileAB)] in
  let st := (buildProjectStructure "repo" units1 (mkState [] ∅)).2 in
  (analyzeFunctionCalls units1 st).1 = (analyzeFunctionCalls units2 st).1
  ∧ (∀ a b, b ∈ callsOf (analyzeFunctionCalls units1 st).2 a
            ↔ b ∈ callsOf (analyzeFunctionCalls units2 st).2 a)
  ∧ (∀ a b, a ∈ calledByOf (analyzeFunctionCalls units1 st).2 b
            ↔ a ∈ calledByOf (analyzeFunctionCalls units2 st).2 b).
Proof.
  intros units1 units2 st.
  apply (analysis_order_independent units1 units2 st).
  - apply storeOk_buildProjectStructure, storeOk_empty.
  - apply perm_swap.
Defined.

(** X5.  Analysing the files a second time adds no edge: the store after
    two passes is the store after one. *)
Theorem reanalysis_keeps_store (units : list SourceUnit) (st : State) :
  registryValid st →
  (analyzeFunctionCalls units (analyzeFunctionCalls units st).2).2
  = (analyzeFunctionCalls units st).2.
Proof.
  intros Hreg. rewrite !analyzeFunctionCalls_calls. simpl.
  apply linkCalls_linked. intros call a b Hin Ha Hb.
  rewrite allNodes_linkCalls in Ha, Hb.
  apply hasEdge_linkCalls; [done |]. right. by exists call.
Qed.

Lemma reanalysis_keeps_store_witness :
  let units := [("a.go", Some fileAB)] in
  let st := (buildProjectStructure "repo" units (mkState [] ∅)).2 in
  (analyzeFunctionCalls units (analyzeFunctionCalls units st).2).2
  = (analyzeFunctionCalls units st).2.
Proof.
  intros units st. apply (reanalysis_keeps_store units st).
  apply storeOk_buildProjectStructure, storeOk_empty.
Defined.

(** ** What extraction and resolution leave alone *)

Lemma nodeGrows_refl n : nodeGrows n n.
Proof. by repeat split. Qed.

Lemma nodeGrows_trans n1 n2 n3 : nodeGrows n1 n2 → nodeGrows n2 n3 → nodeGrows n1 n3.
Proof.
  intros (Hname & Htype & Hfile & Himpl & Hrecv & Hkids & Hcalls & Hcallers).
  intros (Hname' & Htype' & Hfile' & Himpl' & Hrecv' & Hkids' & Hcalls' & Hcallers').
  repeat split; try congruence; by etrans.
Qed.

Lemma storeGrows_refl st : storeGrows st st.
Proof. split; [done |]. intros p n Hp. exists n. split; [done | apply nodeGrows_refl]. Qed.

Lemma storeGrows_trans st1 st2 st3 :
  storeGrows st1 st2 → storeGrows st2 st3 → storeGrows st1 st3.
Proof.
  intros [Hk12 Hn12] [Hk23 Hn23]. split; [auto |].
  intros p n1 Hp. destruct (Hn12 p n1 Hp) as (n2 & Hp2 & Hg12).
  destruct (Hn23 p n2 Hp2) as (n3 & Hp3 & Hg23).
  exists n3. split; [done | by eapply nodeGrows_trans].
Qed.

Lemma storeGrows_alloc n st : storeGrows st (alloc n st).2.
Proof.
  split; [done |]. intros p n' Hp. exists n'. split; [|apply nodeGrows_refl].
  simpl. rewrite lookup_app_l; [done | by eapply lookup_lt_Some].
Qed.

Lemma storeGrows_setNode key p st : storeGrows st (setNode key p st).
Proof.
  split.
  - intros key' Hkey. simpl. rewrite lookup_insert. by case_decide.
  - intros q n Hq. exists n. split; [done | apply nodeGrows_refl].
Qed.

(** An update of one node that makes it grow. *)
Lemma storeGrows_alter (g : CodeNode → CodeNode) p st :
  (∀ n, nodeGrows n (g n)) →
  storeGrows st (mkState (alter g p (heap st)) (allNodes st)).
Proof.
  intros Hg. split; [done |]. intros q n Hq. simpl.
  destruct (decide (p = q)) as [->|Hne].
  - exists (g n). rewrite list_lookup_alter_eq, Hq. done.
  - exists n. rewrite list_lookup_alter_ne by done. split; [done | apply nodeGrows_refl].
Qed.

Lemma storeGrows_appendChild p c st : storeGrows st (appendChild p c st).
Proof. apply storeGrows_alter. intros n. repeat split; simpl; try done. by apply prefix_app_r. Qed.

Lemma storeGrows_appendCall a b st : storeGrows st (appendCall a b st).
Proof. apply storeGrows_alter. intros n. repeat split; simpl; try done. by apply prefix_app_r. Qed.

Lemma storeGrows_appendCalledBy a b st : storeGrows st (appendCalledBy b a st).
Proof. apply storeGrows_alter. intros n. repeat split; simpl; try done. by apply prefix_app_r. Qed.

Lemma storeGrows_establishRelationship ka kb st :
  storeGrows st (establishRelationship ka kb st).
Proof.
  unfold establishRelationship.
  destruct (allNodes st !! ka) as [a|]; [|apply storeGrows_refl].
  destruct (allNodes st !! kb) as [b|]; [|apply storeGrows_refl].
  destruct (functionCallExists st a b); [apply storeGrows_refl |].
  eapply storeGrows_trans; [apply storeGrows_appendCall | apply storeGrows_appendCalledBy].
Qed.

Lemma storeGrows_linkCalls calls : ∀ st, storeGrows st (linkCalls st calls).
Proof.
  unfold linkCalls. induction calls as [|call calls IH]; intros st; simpl.
  - apply storeGrows_refl.
  - eapply storeGrows_trans; [apply storeGrows_establishRelationship | apply IH].
Qed.

Lemma storeGrows_register key parent node st :
  storeGrows st (setNode key (length (heap st))
                   (appendChild parent (length (heap st)) (alloc node st).2)).
Proof.
  eapply storeGrows_trans; [apply (storeGrows_alloc node) |].
  eapply storeGrows_trans; [apply storeGrows_appendChild | apply storeGrows_setNode].
Qed.

Lemma storeGrows_registerDecl packageKey relPath parent st decl :
  storeGrows st (registerDecl packageKey relPath parent st decl).
Proof.
  destruct decl as [d|specs]; simpl.
  - apply storeGrows_register.
  - revert st. induction specs as [|spec specs IH]; intros st; simpl.
    + apply storeGrows_refl.
    + eapply storeGrows_trans; [|apply IH].
      destruct spec; simpl; try apply storeGrows_refl. apply storeGrows_register.
Qed.

Lemma storeGrows_registerDecls packageKey relPath parent decls : ∀ st,
  storeGrows st (foldl (registerDecl packageKey relPath parent) st decls).
Proof.
  induction decls as [|decl decls IH]; intros st; simpl.
  - apply storeGrows_refl.
  - eapply storeGrows_trans; [apply storeGrows_registerDecl | apply IH].
Qed.

Lemma storeGrows_processGoFile relPath file root packages st :
  storeGrows st (processGoFile relPath file root (packages, st)).2.
Proof.
  destruct file as [file|]; [|apply storeGrows_refl]. unfold processGoFile.
  destruct (packages !! _); simpl.
  - apply storeGrows_registerDecls.
  - eapply storeGrows_trans; [|apply storeGrows_registerDecls].
    eapply storeGrows_trans; [|apply storeGrows_appendChild].
    apply (storeGrows_alloc (mkCodeNode _ _ _ _ _ _ _ _)).
Qed.

Lemma storeGrows_analyzeFile relPath file counts st :
  storeGrows st (analyzeFile relPath file (counts, st)).2.
Proof. rewrite analyzeFile_calls. apply storeGrows_linkCalls. Qed.

Lemma storeGrows_step w op : storeGrows (world w) (world (step w op)).
Proof.
  destruct op; simpl; [apply storeGrows_processGoFile | apply storeGrows_analyzeFile].
Qed.

(** X6.  Nothing is ever deleted or renamed.  Along any run, from any point
    on, every registered key stays registered, and every node stays where it
    is with its name, type, file and receiver; its lists of children, calls
    and callers only get longer at the end. *)
Theorem run_only_grows (repoName : string) (ops1 ops2 : list Op) :
  storeGrows (world (run repoName ops1)) (world (run repoName (ops1 ++ ops2))).
Proof.
  unfold run. rewrite foldl_app. generalize (foldl step (initialWorld repoName) ops1).
  induction ops2 as [|op ops2 IH]; intros w; simpl.
  - apply storeGrows_refl.
  - eapply storeGrows_trans; [apply storeGrows_step | apply IH].
Qed.

(** X7.  Resolution is read-only on the registry and on the tree of
    declarations: the analysis leaves [allNodes] as it is, allocates nothing
    and touches no list of children. *)
Theorem analysis_keeps_declarations (units : list SourceUnit) (st : State) :
  let st' := (analyzeFunctionCalls units st).2 in
  allNodes st' = allNodes st
  ∧ length (heap st') = length (heap st)
  ∧ ∀ p, Children <$> heap st' !! p = Children <$> heap st !! p.
Proof.
  rewrite analyzeFunctionCalls_calls. simpl.
  split; [apply allNodes_linkCalls |]. split; [apply length_heap_linkCalls |].
  intros p. generalize (unitsCalls units). intros calls. revert st.
  unfold linkCalls. induction calls as [|call calls IH]; intros st; simpl; [done |].
  rewrite IH. unfold establishRelationship.
  destruct (allNodes st !! call.1) as [a|]; [|done].
  destruct (allNodes st !! call.2) as [b|]; [|done].
  destruct (functionCallExists st a b); [done |]. simpl.
  destruct (decide (b = p)) as [->|Hb]; destruct (decide (a = p)) as [->|Ha];
    rewrite ?list_lookup_alter_eq, ?list_lookup_alter_ne by done;
    rewrite ?list_lookup_alter_eq, ?list_lookup_alter_ne by done;
    by destruct (heap st !! p).
Qed.

(** ** Extraction *)

Lemma edges_alloc n st p :
  Calls n = [] → CalledBy n = [] →
  callsOf (alloc n st).2 p = callsOf st p ∧ calledByOf (alloc n st).2 p = calledByOf st p.
Proof.
  intros Hc Hb. rewrite callsOf_alloc, calledByOf_alloc, Hc, Hb.
  case_decide; [|done]. subst p.
  by rewrite callsOf_outside, calledByOf_outside.
Qed.

Lemma edges_register key parent node st p :
  Calls node = [] → CalledBy node = [] →
  let st' := setNode key (length (heap st))
               (appendChild parent (length (heap st)) (alloc node st).2) in
  callsOf st' p = callsOf st p ∧ calledByOf st' p = calledByOf st p.
Proof.
  intros Hc Hb st'. destruct (edges_alloc node st p Hc Hb) as [<- <-].
  split; [apply callsOf_appendChild | apply calledByOf_appendChild].
Qed.

Lemma processFunction_edges d relPath :
  Calls (processFunction d relPath) = [] ∧ CalledBy (processFunction d relPath) = [].
Proof. unfold processFunction. by destruct (Recv d) as [[|? ?]|]. Qed.

Lemma edges_registerDecl packageKey relPath parent decl : ∀ st p,
  callsOf (registerDecl packageKey relPath parent st decl) p = callsOf st p
  ∧ calledByOf (registerDecl packageKey relPath parent st decl) p = calledByOf st p.
Proof.
  destruct decl as [d|specs]; simpl.
  - intros st p. apply edges_register; apply processFunction_edges.
  - induction specs as [|spec specs IH]; intros st p; simpl; [done |].
    destruct (IH (registerSpec packageKey relPath parent spec st) p) as [-> ->].
    destruct spec as [| |name type_]; simpl; try done.
    by apply (edges_register _ _ (processType name type_ relPath)).
Qed.

Lemma edges_processGoFile (relPath : string) (file : option File) (root : nat)
    (packages : gmap string nat) (st : State) (p : nat) :
  let st' := (processGoFile relPath file root (packages, st)).2 in
  callsOf st' p = callsOf st p ∧ calledByOf st' p = calledByOf st p.
Proof.
  destruct file as [file|]; [|done]. unfold processGoFile.
  set (packageKey := mkPackageKey _ _).
  assert (∀ decls parent st0,
            callsOf (foldl (registerDecl packageKey relPath parent) st0 decls) p
            = callsOf st0 p
            ∧ calledByOf (foldl (registerDecl packageKey relPath parent) st0 decls) p
              = calledByOf st0 p) as Hfold.
  { induction decls as [|decl decls IH]; intros parent st0; simpl; [done |].
    destruct (IH parent (registerDecl packageKey relPath parent st0 decl)) as [-> ->].
    apply edges_registerDecl. }
  destruct (packages !! packageKey); simpl.
  - apply Hfold.
  - set (pkg := mkCodeNode (PkgName file) "package" (filepathDir relPath) [] [] [] "" "").
    destruct (Hfold (Decls file) (length (heap st))
                (appendChild root (length (heap st)) (alloc pkg st).2)) as [Hc Hb].
    destruct (edges_alloc pkg st p eq_refl eq_refl) as [Hc' Hb'].
    split.
    + etrans; [exact Hc |]. by rewrite callsOf_appendChild.
    + etrans; [exact Hb |]. by rewrite calledByOf_appendChild.
Qed.

(** X8.  Extraction never creates or removes an edge: processing a file
    leaves the calls and the callers of every node as they were, and the
    nodes it adds have none. *)
Theorem extraction_keeps_edges (relPath : string) (file : option File) (root : nat)
    (packages : gmap string nat) (st : State) (p : nat) :
  let st' := (processGoFile relPath file root (packages, st)).2 in
  callsOf st' p = callsOf st p ∧ calledByOf st' p = calledByOf st p.
Proof. apply edges_processGoFile. Qed.

Lemma registerDecl_registers packageKey relPath parent st decl key :
  key ∈ declKeys packageKey decl →
  is_Some (allNodes (registerDecl packageKey relPath parent st decl) !! key).
Proof.
  destruct decl as [d|specs]; simpl.
  - intros Hkey. apply list_elem_of_singleton in Hkey as ->.
    rewrite (buildFunctionKey_nodeKey _ _ relPath). unfold registerFunction. simpl.
    rewrite lookup_insert_eq. by eexists.
  - revert st. induction specs as [|spec specs IH]; intros st; simpl.
    + intros Hkey. by apply elem_of_nil in Hkey.
    + rewrite elem_of_app. intros [Hkey|Hkey]; [|by apply IH].
      destruct spec as [| |name type_]; try by apply elem_of_nil in Hkey.
      apply list_elem_of_singleton in Hkey as ->.
      apply (storeGrows_registerDecl packageKey relPath parent _ (DGen specs)).
      simpl. rewrite lookup_insert_eq. by eexists.
Qed.



Lemma adopt_nil n : adopt [] n = n.
Proof. destruct n. unfold adopt, setChildren. simpl. by rewrite app_nil_r. Qed.

Lemma adopt_adopt cs1 cs2 n : adopt cs2 (adopt cs1 n) = adopt (cs1 ++ cs2) n.
Proof. unfold adopt, setChildren. simpl. by rewrite app_assoc. Qed.

Lemma grown_nil parent h : grown parent h [] = h.
Proof.
  unfold grown. simpl. rewrite app_nil_r. apply list_alter_id, adopt_nil.
Qed.

Lemma length_grown parent h nodes : length (grown parent h nodes) = length h + length nodes.
Proof. unfold grown. by rewrite length_app, length_alter. Qed.

Lemma heap_register_grown key parent node st h nodes :
  parent < length h → heap st = grown parent h nodes →
  heap (setNode key (length (heap st))
          (appendChild parent (length (heap st)) (alloc node st).2))
  = grown parent h (nodes ++ [node]).
Proof.
  intros Hparent Hst. simpl. rewrite Hst, length_grown. unfold grown.
  rewrite <- app_assoc, alter_app_l by (rewrite length_alter; lia).
  rewrite list_alter_alter_eq. f_equal.
  apply list_alter_ext; [|done]. intros n _. unfold adopt, setChildren. simpl.
  rewrite length_app, seq_app, <- app_assoc. done.
Qed.

Lemma heap_registerDecl_grown packageKey relPath parent decl h : ∀ st nodes,
  parent < length h → heap st = grown parent h nodes →
  heap (registerDecl packageKey relPath parent st decl)
  = grown parent h (nodes ++ declNodes relPath decl).
Proof.
  destruct decl as [d|specs]; simpl.
  - intros st nodes Hparent Hst.
    exact (heap_register_grown (nodeKey packageKey (processFunction d relPath)) parent
             (processFunction d relPath) st h nodes Hparent Hst).
  - induction specs as [|spec specs IH]; intros st nodes Hparent Hst; simpl.
    + by rewrite app_nil_r.
    + rewrite app_assoc. apply IH; [done |].
      destruct spec as [| |name type_]; simpl; rewrite ?app_nil_r; try done.
      exact (heap_register_grown (packageKey +:+ ":" +:+ name) parent
               (processType name type_ relPath) st h nodes Hparent Hst).
Qed.

Lemma heap_registerDecls_grown packageKey relPath parent h decls : ∀ st nodes,
  parent < length h → heap st = grown parent h nodes →
  heap (foldl (registerDecl packageKey relPath parent) st decls)
  = grown parent h (nodes ++ flat_map (declNodes relPath) decls).
Proof.
  induction decls as [|decl decls IH]; intros st nodes Hparent Hst; simpl.
  - by rewrite app_nil_r.
  - rewrite app_assoc. apply IH; [done |]. by apply heap_registerDecl_grown.
Qed.

Lemma heap_processGoFile (relPath : string) (file : File) (root : nat)
    (packages : gmap string nat) (st : State) :
  root < length (heap st) →
  (∀ key q, packages !! key = Some q → q < length (heap st)) →
  let nodes := fileNodes relPath file in
  let size := length (heap st) in
  let packageNode :=
    mkCodeNode (PkgName file) "package" (filepathDir relPath) [] [] [] "" "" in
  heap (processGoFile relPath (Some file) root (packages, st)).2
  = match packages !! mkPackageKey (filepathDir relPath) (PkgName file) with
    | Some q => alter (adopt (seq size (length nodes))) q (heap st) ++ nodes
    | None =>
        alter (adopt [size]) root (heap st)
        ++ [adopt (seq (S size) (length nodes)) packageNode] ++ nodes
    end.
Proof.
  intros Hroot Hpackages nodes size packageNode. unfold processGoFile.
  destruct (packages !! mkPackageKey _ _) as [q|] eqn:Hq; simpl.
  - apply Hpackages in Hq.
    rewrite (heap_registerDecls_grown _ _ q (heap st) _ st []); try done.
    by rewrite grown_nil.
  - set (h0 := alter (λ n, setChildren n (Children n ++ [size])) root
                     (heap st ++ [packageNode])).
    rewrite (heap_registerDecls_grown _ _ size h0 _ _ []);
      [| subst h0; rewrite length_alter, length_app; simpl; lia | by rewrite grown_nil].
    assert (h0 = alter (adopt [size]) root (heap st) ++ [packageNode]) as ->
      by (subst h0; by rewrite alter_app_l).
    unfold grown. rewrite app_nil_l, length_app, length_alter. simpl.
    rewrite alter_app_r_alt by (rewrite length_alter; lia).
    rewrite length_alter, Nat.sub_diag. simpl. rewrite <- app_assoc. simpl.
    fold size. by rewrite Nat.add_1_r.
Qed.

(** X10.  What a file adds to the heap.  For a file of a package that is
    known already, the heap gets one node per function and type declaration
    of the file, in source order, and the package node gets their pointers,
    in that order, as its last children.  For a file of a new package the
    package node comes first, as the last child of the repository node, and
    the declarations follow as its children.  No other node changes. *)
Theorem file_adds_its_declarations (relPath : string) (file : File) (root : nat)
    (packages : gmap string nat) (st : State) :
  root < length (heap st) →
  (∀ key q, packages !! key = Some q → q < length (heap st)) →
  let nodes := fileNodes relPath file in
  let size := length (heap st) in
  let packageNode :=
    mkCodeNode (PkgName file) "package" (filepathDir relPath) [] [] [] "" "" in
  heap (processGoFile relPath (Some file) root (packages, st)).2
  = match packages !! mkPackageKey (filepathDir relPath) (PkgName file) with
    | Some q => alter (adopt (seq size (length nodes))) q (heap st) ++ nodes
    | None =>
        alter (adopt [size]) root (heap st)
        ++ [adopt (seq (S size) (length nodes)) packageNode] ++ nodes
    end.
Proof. apply heap_processGoFile. Qed.

Lemma file_adds_its_declarations_witness :
  let st := (alloc (mkCodeNode "repo" "repository" "" [] [] [] "" "") (mkState [] ∅)).2 in
  heap (processGoFile "a.go" (Some fileAB) 0 (∅, st)).2
  = [mkCodeNode "repo" "repository" "" [1] [] [] "" "";
     mkCodeNode "p" "package" "." [2; 3] [] [] "" "";
     processFunction funcA "a.go"; processFunction funcB "a.go"].
Proof.
  intros st.
  rewrite (file_adds_its_declarations "a.go" fileAB 0 ∅ st).
  - reflexivity.
  - simpl. lia.
  - intros key q Hq. by rewrite lookup_empty in Hq.
Defined.

(** ** Package nodes *)

Lemma packages_processGoFile relPath file root packages st :
  (processGoFile relPath (Some file) root (packages, st)).1
  = match packages !! mkPackageKey (filepathDir relPath) (PkgName file) with
    | Some _ => packages
    | None => <[mkPackageKey (filepathDir relPath) (PkgName file) := length (heap st)]>
                packages
    end.
Proof. unfold processGoFile. by destruct (packages !! _). Qed.

Lemma packagesOk_processGoFile root keys u ps :
  packagesOk root keys ps →
  packagesOk root (keys ∪ list_to_set (omap unitPackageKey [u]))
             (processGoFile u.1 u.2 root ps).
Proof.
  destruct u as [relPath [file|]], ps as [packages st].
  { set (packageKey := mkPackageKey (filepathDir relPath) (PkgName file)).
    assert (list_to_set (omap unitPackageKey [(relPath, Some file)])
            =@{gset string} {[packageKey]}) as -> by set_solver.
    intros (Hq & (rootNode & Hroot & Hsize) & Hdom). cbn [fst snd] in *.
    assert (root < length (heap st)) as Hvalid by (by eapply lookup_lt_Some).
    pose proof (heap_processGoFile relPath file root packages st Hvalid
                  (λ key q H, proj2 (Hq key q H))) as Hheap.
    cbv zeta in Hheap. fold packageKey in Hheap.
    pose proof (packages_processGoFile relPath file root packages st) as Hpackages.
    fold packageKey in Hpackages.
    unfold packagesOk. cbn [fst snd]. rewrite Hpackages, Hheap. clear Hheap Hpackages.
    destruct (packages !! packageKey) as [q|] eqn:Hlookup.
    - destruct (Hq _ _ Hlookup) as [Hrq Hqv]. split; [|split].
      + intros key q' Hq'. destruct (Hq _ _ Hq') as [? ?]. split; [done |].
        rewrite length_app, length_alter. lia.
      + exists rootNode. split; [|done].
        rewrite lookup_app_l by (rewrite length_alter; lia).
        rewrite list_lookup_alter_ne by lia. done.
      + rewrite <- Hdom.
        assert (packageKey ∈ dom packages) by (apply elem_of_dom; by eexists).
        set_solver.
    - split; [|split].
      + intros key q'. rewrite lookup_insert. case_decide.
        * intros [= <-]. split; [done |]. rewrite length_app, length_alter. simpl. lia.
        * intros Hq'. destruct (Hq _ _ Hq') as [? ?]. split; [done |].
          rewrite length_app, length_alter. simpl. lia.
      + exists (adopt [length (heap st)] rootNode). split.
        * rewrite lookup_app_l by (rewrite length_alter; lia).
          by rewrite list_lookup_alter_eq, Hroot.
        * simpl. rewrite length_app, Hsize, map_size_insert_None by done. simpl. lia.
      + rewrite dom_insert_L, Hdom. set_solver. }
  assert (list_to_set (omap unitPackageKey [(relPath, None)]) =@{gset string} ∅)
    as -> by set_solver.
  by rewrite union_empty_r_L.
Qed.

(** X11.  The repository node gets one package node per package key: after
    [buildProjectStructure] the number of its children is the number of
    distinct pairs of directory and package name among the files that
    parse, however many files a package has. *)
Theorem one_package_node_per_key (repoName : string) (units : list SourceUnit)
    (st : State) :
  let result := buildProjectStructure repoName units st in
  ∃ rootNode, heap result.2 !! result.1 = Some rootNode
              ∧ length (Children rootNode) = size (packageKeys units).
Proof.
  unfold buildProjectStructure. simpl. set (root := length (heap st)).
  set (st0 := mkState (heap st ++ [_]) (allNodes st)).
  assert (∀ units keys ps, packagesOk root keys ps →
            packagesOk root (keys ∪ packageKeys units)
              (foldl (λ ps (u : SourceUnit), processGoFile u.1 u.2 root ps) ps units))
    as Hfold.
  { clear units. induction units as [|u units IH]; intros keys ps Hps; simpl.
    - unfold packageKeys. simpl. by rewrite union_empty_r_L.
    - apply (packagesOk_processGoFile root keys u) in Hps. apply IH in Hps.
      assert (keys ∪ list_to_set (omap unitPackageKey [u]) ∪ packageKeys units
              = keys ∪ packageKeys (u :: units)) as <-; [|exact Hps].
      unfold packageKeys. simpl. destruct (unitPackageKey u); set_solver. }
  destruct (Hfold units ∅ (∅, st0)) as (_ & Hroot & Hdom).
  { split; [|split]; simpl.
    - intros key q. by rewrite lookup_empty.
    - eexists. split; [subst root; apply list_lookup_middle; done | done].
    - apply dom_empty_L. }
  destruct Hroot as (rootNode & Hroot & Hsize). exists rootNode. split; [done |].
  rewrite Hsize, <- size_dom, Hdom. by rewrite union_empty_l_L.
Qed.

(** ** The directory tree: search and rendering *)

Module DirTreeOpsFacts.
Import DirTree DirTreeOps DirTreeFacts.

Lemma IsDir_addParts parts isDir current :
  IsDir (addParts parts isDir current) = IsDir current.
Proof. by destruct parts. Qed.

Section search.
Variables (part : string) (continue_ : TreeNode → TreeNode) (newNode : TreeNode).
Hypothesis continue_Name : ∀ child, Name (continue_ child) = Name child.
Hypothesis newNode_Name : Name newNode = part.

Lemma findChild_intoChild_same children :
  findChild part (intoChild part continue_ newNode children)
  = Some (from_option continue_ newNode (findChild part children)).
Proof.
  unfold findChild. induction children as [|child others IH]; simpl.
  - by rewrite newNode_Name, String.eqb_refl.
  - destruct (String.eqb (Name child) part) eqn:Heq; simpl.
    + by rewrite continue_Name, Heq.
    + by rewrite Heq.
Qed.

Lemma findChild_intoChild_other part' children :
  part' ≠ part →
  findChild part' (intoChild part continue_ newNode children) = findChild part' children.
Proof.
  intros Hne.
  assert (String.eqb part part' = false) as Hdiff by (apply String.eqb_neq; congruence).
  unfold findChild. induction children as [|child others IH]; simpl.
  - by rewrite newNode_Name, Hdiff.
  - destruct (String.eqb (Name child) part) eqn:Heq; simpl.
    + rewrite continue_Name. apply String.eqb_eq in Heq. by rewrite Heq, Hdiff.
    + by rewrite IH.
Qed.

Lemma intoChild_found children child :
  findChild part children = Some child → continue_ child = child →
  intoChild part continue_ newNode children = children.
Proof.
  unfold findChild. induction children as [|c others IH]; simpl; [done |].
  destruct (String.eqb (Name c) part); [by intros [= ->] -> |].
  intros Hfind Hcont. by rewrite IH.
Qed.

End search.

(** X12.  Inserting a path that is in the tree already changes nothing,
    whatever flag comes with it: a node is never re-flagged. *)
Theorem addNodeToTree_existing_path (root : TreeNode) (path : string)
    (isDir : bool) (node : TreeNode) :
  findPath (splitOn slash path) root = Some node →
  addNodeToTree root path isDir = root.
Proof.
  unfold addNodeToTree. generalize (splitOn slash path). intros parts. revert root.
  induction parts as [|part rest IH]; intros root; simpl; [done |].
  destruct root as [name dir children]. simpl.
  destruct (findChild part children) as [child|] eqn:Hchild; [|done].
  intros Hfind. f_equal. eapply intoChild_found; [done |]. by apply IH.
Qed.

Lemma addNodeToTree_existing_path_witness :
  let root := addNodeToTree (mkTreeNode "repo" true []) "a/b.go" false in
  addNodeToTree root "a" false = root.
Proof.
  intros root.
  apply (addNodeToTree_existing_path root "a" false
           (mkTreeNode "a" true [mkTreeNode "b.go" false []])).
  reflexivity.
Defined.

Lemma findPath_addParts parts isDir : ∀ current,
  ∃ node, findPath parts (addParts parts isDir current) = Some node
          ∧ (findPath parts current = None → IsDir node = isDir ∧ Children node = []).
Proof.
  induction parts as [|part rest IH]; intros current; simpl.
  - exists current. split; [done |]. done.
  - destruct current as [name dir children]. simpl.
    rewrite findChild_intoChild_same
      by (intros; apply Name_addParts || by rewrite Name_addParts).
    destruct (findChild part children) as [child|]; simpl; [apply IH |].
    destruct (IH (mkTreeNode part (negb (bool_decide (rest = [])) || isDir) []))
      as (node & Hnode & Hnew).
    exists node. split; [done |]. intros _.
    destruct rest as [|part' rest]; [|by apply Hnew].
    simpl in Hnode. by injection Hnode as <-.
Qed.

(** X13.  After the insertion of a path the search along the path succeeds;
    when the path was not in the tree before, the node it reaches is a new
    leaf that carries the flag of the insertion. *)
Theorem addNodeToTree_then_found (root : TreeNode) (path : string) (isDir : bool) :
  ∃ node, findPath (splitOn slash path) (addNodeToTree root path isDir) = Some node
          ∧ (findPath (splitOn slash path) root = None →
             IsDir node = isDir ∧ Children node = []).
Proof. apply findPath_addParts. Qed.

(** X14.  An insertion keeps what was in the tree: a path found before is
    found after, at a node with the same name and the same flag. *)
Theorem addNodeToTree_keeps_paths (root : TreeNode) (path : string) (isDir : bool)
    (parts : list string) (node : TreeNode) :
  findPath parts root = Some node →
  ∃ node', findPath parts (addNodeToTree root path isDir) = Some node'
           ∧ Name node' = Name node ∧ IsDir node' = IsDir node.
Proof.
  unfold addNodeToTree. generalize (splitOn slash path). intros inserted.
  revert inserted root.
  induction parts as [|part' rest' IH]; intros inserted root; simpl.
  - intros [= <-]. exists (addParts inserted isDir root).
    by rewrite Name_addParts, IsDir_addParts.
  - destruct inserted as [|part rest]; [by eauto |].
    destruct root as [name dir children]. simpl.
    destruct (findChild part' children) as [child|] eqn:Hchild; [|done].
    intros Hfind. destruct (decide (part' = part)) as [->|Hne].
    + rewrite findChild_intoChild_same
        by (intros; apply Name_addParts || by rewrite Name_addParts).
      rewrite Hchild. simpl. by apply IH.
    + rewrite findChild_intoChild_other
        by (try done; intros; apply Name_addParts || by rewrite Name_addParts).
      rewrite Hchild. by eauto.
Qed.

Lemma addNodeToTree_keeps_paths_witness :
  let root := addNodeToTree (mkTreeNode "repo" true []) "a/b.go" false in
  ∃ node', findPath ["a"; "b.go"] (addNodeToTree root "a/c.go" false) = Some node'
           ∧ Name node' = "b.go" ∧ IsDir node' = false.
Proof.
  intros root.
  apply (addNodeToTree_keeps_paths root "a/c.go" false ["a"; "b.go"]
           (mkTreeNode "b.go" false [])).
  reflexivity.
Defined.

(** X15.  The renderer of the analyser and [generateTree] of the
    stand-alone tool write the same text for every tree in which no node
    has the empty name. *)
Theorem renderers_agree (node : TreeNode) (prefix : string) (isLast : bool) :
  allNamed node → RenderNode node prefix isLast = generateTree node prefix isLast.
Proof.
  revert prefix isLast. induction node as [name dir children IH] using TreeNode_nested_ind.
  intros prefix isLast Hnamed. inv Hnamed.
  simpl. assert (String.eqb name "" = false) as -> by by apply String.eqb_neq.
  simpl. f_equal.
  match goal with H : Forall allNamed _ |- _ => rename H into Hchildren end.
  generalize (prefix +:+ indentation isLast). intros prefix'.
  induction children as [|child others IHothers]; [done |].
  inv IH. inv Hchildren. f_equal; auto.
Qed.

Lemma renderers_agree_witness :
  let root := addNodeToTree (mkTreeNode "repo" true []) "a/b.go" false in
  RenderNode root "" true = generateTree root "" true.
Proof.
  intros root. apply (renderers_agree root "" true).
  subst root. vm_compute.
  apply allNamed_node; [discriminate |]. constructor; [|constructor].
  apply allNamed_node; [discriminate |]. constructor; [|constructor].
  apply allNamed_node; [discriminate | constructor].
Defined.

End DirTreeOpsFacts.

Lemma addNodeToTree_then_found_witness :
  ∃ node, DirTreeOps.findPath ["a"; "b.go"]
            (DirTree.addNodeToTree (DirTree.mkTreeNode "repo" true []) "a/b.go" false)
          = Some node
          ∧ DirTree.IsDir node = false ∧ DirTree.Children node = [].
Proof.
  destruct (DirTreeOpsFacts.addNodeToTree_then_found
              (DirTree.mkTreeNode "repo" true []) "a/b.go" false) as (node & Hfind & Hnew).
  exists node. split; [exact Hfind |]. apply Hnew. reflexivity.
Defined.

(** ** Sorting the directory tree *)

Module SortTreeFacts.
Import DirTree DirTreeOps DirTreeFacts.

(** The order of Go strings. *)
Lemma ltb_lt a b : String.ltb a b = true ↔ String_as_OT.lt a b.
Proof.
  rewrite <- String_as_OT.cmp_lt. unfold String.ltb, String_as_OT.cmp.
  by destruct (String.compare a b).
Qed.

Lemma ltb_asym a b : String.ltb a b = true → String.ltb b a = false.
Proof.
  unfold String.ltb. rewrite (String.compare_antisym b a).
  by destruct (String.compare a b).
Qed.

Lemma ltb_total a b : String.ltb a b = false → String.ltb b a = false → a = b.
Proof.
  unfold String.ltb. rewrite (String.compare_antisym b a).
  destruct (String.compare a b) eqn:Hcmp; try done.
  intros _ _. by apply String.compare_eq_iff.
Qed.

Lemma ltb_negtrans a b c :
  String.ltb a b = false → String.ltb b c = false → String.ltb a c = false.
Proof.
  intros Hab Hbc. destruct (String.ltb a c) eqn:Hac; [|done].
  destruct (String.ltb b a) eqn:Hba.
  - apply ltb_lt in Hba, Hac.
    assert (String.ltb b c = true) by (apply ltb_lt; by eapply String_as_OT.lt_trans).
    congruence.
  - assert (a = b) as -> by by apply ltb_total. congruence.
Qed.

Lemma lessNode_asym x y : lessNode x y = true → lessNode y x = false.
Proof.
  unfold lessNode. destruct (IsDir x), (IsDir y); simpl; try done. all: apply ltb_asym.
Qed.

Lemma lessNode_negtrans x y z :
  lessNode x y = false → lessNode y z = false → lessNode x z = false.
Proof.
  unfold lessNode. destruct (IsDir x), (IsDir y), (IsDir z); simpl; try done.
  all: apply ltb_negtrans.
Qed.

Lemma lessNode_total x y :
  lessNode x y = false → lessNode y x = false → IsDir x = IsDir y ∧ Name x = Name y.
Proof.
  unfold lessNode. destruct (IsDir x), (IsDir y); simpl; try done.
  all: intros Hxy Hyx; split; [done | by apply ltb_total].
Qed.

(** The insertion sort meets the promise of [sort.Slice] for any comparison
    that is a strict weak order. *)
Lemma insertLeft_ordered {A} (less : A → A → bool) (x : A) (acc : list A) :
  (∀ a b, less a b = true → less b a = false) →
  (∀ a b c, less a b = false → less b c = false → less a c = false) →
  StronglySorted (λ u v, less u v = false) acc →
  StronglySorted (λ u v, less u v = false) (insertLeft less x acc).
Proof.
  intros Hasym Htrans. induction 1 as [|y acc Hacc IH Hy]; simpl.
  - repeat constructor.
  - destruct (less x y) eqn:Hless.
    + constructor; [exact IH |].
      rewrite (insertLeft_perm less x acc). constructor; [by apply Hasym | exact Hy].
    + constructor; [by constructor |]. constructor; [exact Hless |].
      eapply Forall_impl; [exact Hy |]. simpl. intros z Hyz. by eapply Htrans.
Qed.

Lemma insertionSort_sortsNodes : sortsNodes (@insertionSort TreeNode).
Proof.
  intros l. split; [apply insertionSort_perm |]. unfold insertionSort.
  assert (∀ acc, StronglySorted (λ u v, lessNode u v = false) acc →
            StronglySorted (λ u v, lessNode u v = false)
              (foldl (λ revPrefix x, insertLeft lessNode x revPrefix) acc l)) as Hfold.
  { induction l as [|x l IH]; intros acc Hacc; simpl; [done |].
    apply IH, insertLeft_ordered; [apply lessNode_asym | apply lessNode_negtrans | done]. }
  specialize (Hfold [] (SSorted_nil _)). revert Hfold.
  by apply StronglySorted_reverse.
Qed.

(** Heights and fuel. *)
Lemma height_child node child :
  child ∈ Children node → S (height child) ≤ height node.
Proof.
  destruct node as [name dir children]. simpl.
  induction children as [|c cs IH]; intros Hin; [by apply elem_of_nil in Hin |].
  apply elem_of_cons in Hin as [->|Hin]; [lia |]. apply IH in Hin. lia.
Qed.

Lemma height_leaf node : height node = 0 → Children node = [].
Proof. destruct node as [name dir [|c cs]]; simpl; [done | lia]. Qed.

Section with_sort.
Variable sortSlice : (TreeNode → TreeNode → bool) → list TreeNode → list TreeNode.
Hypothesis sortSlice_ok : sortsNodes sortSlice.

Lemma sortSlice_elem l x : x ∈ sortSlice lessNode l ↔ x ∈ l.
Proof. by rewrite (proj1 (sortSlice_ok l)). Qed.

Lemma sortSlice_elem_1 l x : x ∈ sortSlice lessNode l → x ∈ l.
Proof. apply sortSlice_elem. Qed.

Lemma sortSlice_nil : sortSlice lessNode [] = [].
Proof. destruct (sortSlice_ok []) as [Hperm _]. by apply Permutation_nil_r in Hperm. Qed.

Lemma sortTreeFuel_enough fuel1 : ∀ fuel2 node,
  height node ≤ fuel1 → height node ≤ fuel2 →
  sortTreeFuel sortSlice fuel1 node = sortTreeFuel sortSlice fuel2 node.
Proof.
  induction fuel1 as [|fuel1 IH]; intros [|fuel2] node H1 H2; simpl; try done.
  - pose proof (height_leaf node ltac:(lia)) as Hleaf.
    destruct node as [name dir children]. simpl in Hleaf. subst children.
    simpl. by rewrite sortSlice_nil.
  - pose proof (height_leaf node ltac:(lia)) as Hleaf.
    destruct node as [name dir children]. simpl in Hleaf. subst children.
    simpl. by rewrite sortSlice_nil.
  - f_equal. apply Forall_fmap_ext_1, Forall_forall. intros child Hchild.
    apply sortSlice_elem, height_child in Hchild. apply IH; lia.
Qed.

(** The recursion of the source: sort the children, then sort each child. *)
Lemma sortTree_unfold node :
  sortTree sortSlice node
  = mkTreeNode (Name node) (IsDir node)
      (sortTree sortSlice <$> sortSlice lessNode (Children node)).
Proof.
  unfold sortTree. destruct (height node) as [|h] eqn:Hheight; simpl.
  - pose proof (height_leaf node Hheight) as Hleaf.
    destruct node as [name dir children]. simpl in Hleaf. subst children.
    simpl. by rewrite sortSlice_nil.
  - f_equal. apply Forall_fmap_ext_1, Forall_forall. intros child Hchild.
    apply sortSlice_elem, height_child in Hchild. apply sortTreeFuel_enough; lia.
Qed.

Lemma Name_sortTree node : Name (sortTree sortSlice node) = Name node.
Proof. by rewrite sortTree_unfold. Qed.

Lemma IsDir_sortTree node : IsDir (sortTree sortSlice node) = IsDir node.
Proof. by rewrite sortTree_unfold. Qed.

Lemma lessNode_sortTree x y :
  lessNode (sortTree sortSlice x) (sortTree sortSlice y) = lessNode x y.
Proof. unfold lessNode. by rewrite !Name_sortTree, !IsDir_sortTree. Qed.

Lemma Names_sortTree (l : list TreeNode) :
  Name <$> (sortTree sortSlice <$> l) = Name <$> l.
Proof.
  rewrite <- list_fmap_compose. apply list_fmap_ext. intros i x _. apply Name_sortTree.
Qed.

Lemma sortTree_sorted node : sortedTree (sortTree sortSlice node).
Proof.
  induction node as [name dir children IH] using TreeNode_nested_ind.
  rewrite sortTree_unfold. simpl. constructor.
  - apply (StronglySorted_fmap _ (λ x y, lessNode y x = false)
                                 (λ x y, lessNode y x = false));
      [intros x y; by rewrite lessNode_sortTree | apply sortSlice_ok].
  - apply Forall_fmap, Forall_forall. intros child Hchild.
    apply sortSlice_elem_1 in Hchild. rewrite Forall_forall in IH. by apply IH.
Qed.

Lemma sortTree_distinct node :
  distinctNames node → distinctNames (sortTree sortSlice node).
Proof.
  induction node as [name dir children IH] using TreeNode_nested_ind.
  intros Hnode. inv Hnode. rewrite sortTree_unfold. simpl. constructor.
  - rewrite Names_sortTree. by rewrite (proj1 (sortSlice_ok children)).
  - apply Forall_fmap, Forall_forall. intros child Hchild.
    apply sortSlice_elem_1 in Hchild. rewrite Forall_forall in *. auto.
Qed.

End with_sort.

Lemma NoDup_fmap_eq {A B} (f : A → B) (l : list A) x y :
  NoDup (f <$> l) → x ∈ l → y ∈ l → f x = f y → x = y.
Proof.
  induction l as [|a l IH]; csimpl; intros Hnodup Hx Hy Heq.
  - by apply elem_of_nil in Hx.
  - apply NoDup_cons in Hnodup as [Ha Hnodup].
    apply elem_of_cons in Hx as [->|Hx]; apply elem_of_cons in Hy as [->|Hy]; auto.
    + destruct Ha. rewrite Heq. by apply list_elem_of_fmap_2.
    + destruct Ha. rewrite <- Heq. by apply list_elem_of_fmap_2.
Qed.

(** With distinct names there is one way only to put a list in order. *)
Lemma sorted_unique (l1 l2 : list TreeNode) :
  NoDup (Name <$> l1) → l1 ≡ₚ l2 →
  StronglySorted (λ x y, lessNode y x = false) l1 →
  StronglySorted (λ x y, lessNode y x = false) l2 →
  l1 = l2.
Proof.
  intros Hnodup Hperm H1 H2.
  apply (StronglySorted_unique_strong (λ x y, lessNode y x = false)); try done.
  intros x y Hx Hy Hxy Hyx. rewrite <- Hperm in Hy.
  destruct (lessNode_total _ _ Hxy Hyx) as [_ Hname].
  by eapply (NoDup_fmap_eq Name l1).
Qed.

Lemma findChild_Some part (l : list TreeNode) child :
  NoDup (Name <$> l) →
  findChild part l = Some child ↔ child ∈ l ∧ Name child = part.
Proof.
  intros Hnodup. unfold findChild. split.
  - intros Hfind. apply find_some in Hfind as [Hin Heq].
    split; [by apply list_elem_of_In | by apply String.eqb_eq].
  - intros [Hin <-]. induction l as [|c l IH]; [by apply elem_of_nil in Hin |].
    simpl. csimpl in Hnodup. apply NoDup_cons in Hnodup as [Hc Hnodup].
    destruct (String.eqb (Name c) (Name child)) eqn:Heq.
    + apply String.eqb_eq in Heq. apply elem_of_cons in Hin as [->|Hin]; [done |].
      destruct Hc. rewrite Heq. by apply list_elem_of_fmap_2.
    + apply elem_of_cons in Hin as [->|Hin]; [by rewrite String.eqb_refl in Heq |].
      by apply IH.
Qed.

(** X16.  [sortTree] puts every list of children in order, directories
    before files and each kind by name; it keeps the names of the children
    distinct, and every path of the tree still leads to a node with the same
    name and flag. *)
Theorem sortTree_sorts sortSlice (node : TreeNode) :
  sortsNodes sortSlice → distinctNames node →
  sortedTree (sortTree sortSlice node)
  ∧ distinctNames (sortTree sortSlice node)
  ∧ ∀ parts found, findPath parts node = Some found →
      ∃ found', findPath parts (sortTree sortSlice node) = Some found'
                ∧ Name found' = Name found ∧ IsDir found' = IsDir found.
Proof.
  intros Hsort Hnode. split; [by apply sortTree_sorted |].
  split; [by apply sortTree_distinct |].
  intros parts. revert node Hnode.
  induction parts as [|part rest IH]; intros node Hnode found; simpl.
  - intros [= <-]. exists (sortTree sortSlice node).
    by rewrite Name_sortTree, IsDir_sortTree.
  - rewrite sortTree_unfold by done. simpl.
    destruct node as [name dir children]. inv Hnode. simpl.
    destruct (findChild part children) as [child|] eqn:Hchild; [|done].
    apply findChild_Some in Hchild as [Hin Hname]; [|done].
    assert (findChild part (sortTree sortSlice <$> sortSlice lessNode children)
            = Some (sortTree sortSlice child)) as ->.
    { apply findChild_Some.
      - rewrite Names_sortTree by done. by rewrite (proj1 (Hsort children)).
      - split; [|by rewrite Name_sortTree].
        apply list_elem_of_fmap_2. by apply sortSlice_elem. }
    apply IH. match goal with H : Forall distinctNames _ |- _ =>
      rewrite Forall_forall in H; by apply H end.
Qed.

Lemma sortTree_sorts_witness :
  let root := addNodeToTree (addNodeToTree (mkTreeNode "repo" true []) "b.go" false)
                            "a" true in
  sortTree (@insertionSort _) root
  = mkTreeNode "repo" true [mkTreeNode "a" true []; mkTreeNode "b.go" false []]
  ∧ sortedTree (sortTree (@insertionSort _) root).
Proof.
  intros root. split; [reflexivity |].
  apply (sortTree_sorts (@insertionSort _) root insertionSort_sortsNodes).
  apply distinctNames_addParts, distinctNames_addParts, distinctNames_leaf.
Defined.

Lemma sortTree_fixed sortSlice node :
  sortsNodes sortSlice → sortedTree node → distinctNames node →
  sortTree sortSlice node = node.
Proof.
  intros Hsort. induction node as [name dir children IH] using TreeNode_nested_ind.
  intros Hsorted Hnode. inv Hsorted. inv Hnode. rewrite sortTree_unfold by done. simpl.
  f_equal.
  assert (sortSlice lessNode children = children) as ->.
  { destruct (Hsort children) as [Hperm Hs].
    apply sorted_unique; try done. by rewrite Hperm. }
  rewrite <- (list_fmap_id children) at 2.
  apply Forall_fmap_ext_1. rewrite Forall_forall in *. intros child Hchild. simpl. auto.
Qed.

(** X17.  On a tree whose children have distinct names the sorted tree does
    not depend on how [sort.Slice] treats equal elements, for there are
    none: any two sorts that keep its promise give the same tree, and
    sorting a second time changes nothing. *)
Theorem sortTree_determined sortSlice1 sortSlice2 (node : TreeNode) :
  sortsNodes sortSlice1 → sortsNodes sortSlice2 → distinctNames node →
  sortTree sortSlice1 node = sortTree sortSlice2 node
  ∧ sortTree sortSlice1 (sortTree sortSlice1 node) = sortTree sortSlice1 node.
Proof.
  intros Hsort1 Hsort2 Hnode. split.
  - induction node as [name dir children IH] using TreeNode_nested_ind.
    inv Hnode. rewrite !sortTree_unfold by done. simpl. f_equal.
    destruct (Hsort1 children) as [Hperm1 Hs1]. destruct (Hsort2 children) as [Hperm2 Hs2].
    assert (sortSlice1 lessNode children = sortSlice2 lessNode children) as ->.
    { apply sorted_unique; try done; by rewrite Hperm1. }
    apply Forall_fmap_ext_1, Forall_forall. intros child Hchild.
    rewrite Hperm2 in Hchild. rewrite Forall_forall in *. auto.
  - apply sortTree_fixed; [done | by apply sortTree_sorted | by apply sortTree_distinct].
Qed.

Lemma sortTree_determined_witness :
  let root := addNodeToTree (addNodeToTree (mkTreeNode "repo" true []) "b.go" false)
                            "a" true in
  sortTree (@insertionSort _) root = sortTree (@insertionSort _) root
  ∧ sortTree (@insertionSort _) (sortTree (@insertionSort _) root)
    = sortTree (@insertionSort _) root.
Proof.
  intros root.
  apply (sortTree_determined (@insertionSort _) (@insertionSort _) root
           insertionSort_sortsNodes insertionSort_sortsNodes).
  apply distinctNames_addParts, distinctNames_addParts, distinctNames_leaf.
Defined.

End SortTreeFacts.

(** ** Imports *)

Lemma buildImportMap_snoc name imports imp decls :
  buildImportMap (mkFile name (imports ++ [imp]) decls)
  = <[importAlias imp := trimQuotes imp.2]> (buildImportMap (mkFile name imports decls)).
Proof. unfold buildImportMap. simpl. by rewrite foldl_snoc. Qed.

(** X18.  An alias of the import map stands for the last import of the file
    that goes by it, and for nothing when there is none: a later import
    replaces an earlier one of the same name. *)
Theorem buildImportMap_last_wins (file : File) (alias : string) :
  buildImportMap file !! alias
  = (λ imp : option string * string, trimQuotes imp.2)
    <$> last (filter (λ imp, importAlias imp = alias) (Imports file)).
Proof.
  destruct file as [name imports decls]. simpl.
  induction imports as [|imp imports IH] using rev_ind; [done |].
  rewrite buildImportMap_snoc, filter_app, lookup_insert, filter_cons, filter_nil.
  destruct (decide (importAlias imp = alias)) as [Halias|Halias].
  - by rewrite last_snoc.
  - by rewrite app_nil_r.
Qed.

(** ** Entry points *)

Lemma app_assoc_str (s t u : string) : (s +:+ t) +:+ u = s +:+ (t +:+ u).
Proof. induction s as [|a s IH]; str_simpl; [done | by rewrite IH]. Qed.

Lemma declaresMain_decl file :
  declaresMain file = true →
  ∃ d, DFunc d ∈ Decls file ∧ FuncName d = "main" ∧ Recv d = None.
Proof.
  unfold declaresMain. rewrite existsb_exists. intros (decl & Hin & Hdecl).
  destruct decl as [d|]; [|done]. apply andb_prop in Hdecl as [Hname Hrecv].
  exists d. split; [by apply list_elem_of_In |].
  split; [by apply String.eqb_eq | by destruct (Recv d)].
Qed.

Lemma storeGrows_processGoFiles root units : ∀ ps,
  storeGrows ps.2 (foldl (λ ps (u : SourceUnit), processGoFile u.1 u.2 root ps) ps units).2.
Proof.
  induction units as [|u units IH]; intros [packages st]; simpl.
  - apply storeGrows_refl.
  - eapply storeGrows_trans;
      [apply (storeGrows_processGoFile u.1 u.2 root packages st) | apply IH].
Qed.

(** X19.  Every entry point that [findMainPackages] reports has its [main]
    in the registry: after [buildProjectStructure] over the same files the
    key made of the directory, the package name [main] and the function name
    [main] is registered. *)
Theorem main_packages_are_registered (repoName : string) (units : list SourceUnit)
    (st : State) (dir : string) :
  dir ∈ findMainPackages units →
  is_Some (allNodes (buildProjectStructure repoName units st).2
           !! (dir +:+ ":main:main")).
Proof.
  unfold findMainPackages, buildProjectStructure. simpl.
  set (root := length (heap st)). generalize (∅ : gmap string nat).
  generalize (mkState (heap st ++ [mkCodeNode repoName "repository" "" [] [] [] "" ""])
                      (allNodes st)).
  induction units as [|[relPath file] units IH]; intros st0 packages; simpl.
  - intros Hin. by apply elem_of_nil in Hin.
  - rewrite elem_of_app. intros [Hhere|Hlater].
    + destruct file as [file|]; [|by apply elem_of_nil in Hhere]. simpl in Hhere.
      destruct (String.eqb (PkgName file) "main" && declaresMain file) eqn:Hmain;
        [|by apply elem_of_nil in Hhere].
      apply list_elem_of_singleton in Hhere as ->.
      apply andb_prop in Hmain as [Hpkg Hdecl]. apply String.eqb_eq in Hpkg.
      apply declaresMain_decl in Hdecl as (d & Hd & Hname & Hrecv).
      apply (storeGrows_processGoFiles root units
               (processGoFile relPath (Some file) root (packages, st0))).
      unfold processGoFile. set (packageKey := mkPackageKey _ _).
      assert (filepathDir relPath +:+ ":main:main" = buildFunctionKey packageKey d)
        as ->.
      { unfold buildFunctionKey, packageKey, mkPackageKey.
        rewrite Hrecv, Hname, Hpkg. by rewrite app_assoc_str. }
      assert (∀ decls parent st', DFunc d ∈ decls →
                is_Some (allNodes (foldl (registerDecl packageKey relPath parent) st' decls)
                         !! buildFunctionKey packageKey d)) as Hfold.
      { induction decls as [|decl decls IHd]; intros parent st' Hin; simpl.
        - by apply elem_of_nil in Hin.
        - apply elem_of_cons in Hin as [<-|Hin]; [|by apply IHd].
          apply (storeGrows_registerDecls packageKey relPath parent decls).
          apply registerDecl_registers. by left. }
      destruct (packages !! packageKey); simpl; by apply Hfold.
    + destruct (processGoFile relPath file root (packages, st0)) as [packages' st'].
      by apply IH.
Qed.

Lemma main_packages_are_registered_witness :
  let file := mkFile "main" [] [DFunc (mkFuncDecl None "main" [] [])] in
  is_Some (allNodes (buildProjectStructure "repo" [("cmd/tool/main.go", Some file)]
                       (mkState [] ∅)).2
           !! "cmd/tool:main:main").
Proof.
  intros file.
  apply (main_packages_are_registered "repo" [("cmd/tool/main.go", Some file)]
           (mkState [] ∅) "cmd/tool").
  vm_compute. by left.
Defined.

(** ** Statistics *)

Lemma tally_increment key key' stats :
  tally key' (increment key stats)
  = tally key' stats + (if decide (key = key') then 1 else 0).
Proof. apply increment_lookup. Qed.

Lemma nodesOfType_app kind nodes1 nodes2 :
  nodesOfType kind (nodes1 ++ nodes2) = nodesOfType kind nodes1 + nodesOfType kind nodes2.
Proof. unfold nodesOfType. by rewrite filter_app, length_app. Qed.

Lemma nodesOfType_singleton kind node :
  nodesOfType kind [node] = if decide (Type_ node = kind) then 1 else 0.
Proof. unfold nodesOfType. rewrite filter_cons, filter_nil. by case_decide. Qed.

Lemma talliesMatch_refl stats : talliesMatch stats stats [] True.
Proof.
  unfold talliesMatch, nodesOfType. simpl.
  split; [lia |]; split; [lia |]; split; [lia |]; intros _; lia.
Qed.

Lemma talliesMatch_trans stats1 stats2 stats3 nodes1 nodes2 (exact1 exact2 : Prop) :
  talliesMatch stats1 stats2 nodes1 exact1 →
  talliesMatch stats2 stats3 nodes2 exact2 →
  talliesMatch stats1 stats3 (nodes1 ++ nodes2) (exact1 ∧ exact2).
Proof.
  unfold talliesMatch. rewrite !nodesOfType_app.
  intros (Hs1 & Hi1 & Hsum1 & Hex1) (Hs2 & Hi2 & Hsum2 & Hex2).
  split; [lia |]. split; [lia |]. split; [lia |].
  intros [He1 He2]. destruct (Hex1 He1), (Hex2 He2). lia.
Qed.

Lemma talliesMatch_weaken stats stats' nodes (exact exact' : Prop) :
  (exact' → exact) → talliesMatch stats stats' nodes exact →
  talliesMatch stats stats' nodes exact'.
Proof.
  unfold talliesMatch. intros Himpl (Hs & Hi & Hsum & Hex).
  split; [done |]. split; [done |]. split; [done |]. intros Hexact. by apply Hex, Himpl.
Qed.

Lemma talliesMatch_spec relPath stats spec :
  talliesMatch stats (countSpec stats spec) (specNodes relPath spec) True.
Proof.
  destruct spec as [| |name type_]; simpl; try apply talliesMatch_refl.
  unfold talliesMatch. rewrite !nodesOfType_singleton.
  destruct type_; simpl; rewrite ?tally_increment; repeat case_decide; try done.
  all: split; [lia |]; split; [lia |]; split; [lia |]; intros _; lia.
Qed.

Lemma talliesMatch_decl relPath stats decl :
  talliesMatch stats (countDecl stats decl) (declNodes relPath decl)
    (∀ d, decl = DFunc d → Recv d ≠ Some []).
Proof.
  destruct decl as [d|specs]; simpl.
  - unfold talliesMatch. rewrite !nodesOfType_singleton. unfold processFunction.
    destruct (Recv d) as [[|t ts]|] eqn:Hrecv; simpl; rewrite !tally_increment;
      repeat case_decide; try done.
    all: split; [lia |]; split; [lia |]; split; [lia |]; intros Hexact.
    all: first [by destruct (Hexact d eq_refl) | lia].
  - apply (talliesMatch_weaken _ _ _ True); [done |].
    revert stats. induction specs as [|spec specs IH]; intros stats; simpl.
    + apply talliesMatch_refl.
    + eapply talliesMatch_weaken;
        [|eapply talliesMatch_trans; [apply (talliesMatch_spec relPath) | apply IH]].
      done.
Qed.

(** X20.  The statistics and the code structure count the same things: for
    the declarations of a file, the tally of structs and of interfaces is
    the number of struct and interface nodes the extractor creates, and the
    tallies of functions and methods add up to the number of its function
    and method nodes.  They agree one by one as well when no function
    declaration has an empty receiver list, which the tally takes for a
    method and the extractor for a function. *)
Theorem statistics_match_nodes (relPath : string) (file : File)
    (stats : gmap string nat) :
  talliesMatch stats (countDeclarations stats file) (fileNodes relPath file)
    (receiversNonEmpty file).
Proof.
  unfold countDeclarations, fileNodes, receiversNonEmpty.
  generalize (Decls file). intros decls. revert stats.
  induction decls as [|decl decls IH]; intros stats; simpl.
  - eapply talliesMatch_weaken; [|apply talliesMatch_refl]. done.
  - eapply talliesMatch_weaken;
      [|eapply talliesMatch_trans; [apply (talliesMatch_decl relPath) | apply IH]].
    intros Hexact. split.
    + intros d ->. apply Hexact. by left.
    + intros d Hd. apply Hexact. by right.
Qed.

Lemma statistics_match_nodes_witness :
  tally "functions" (countDeclarations ∅ fileAB)
  = tally "functions" ∅ + nodesOfType "function" (fileNodes "a.go" fileAB)
  ∧ tally "methods" (countDeclarations ∅ fileAB)
    = tally "methods" ∅ + nodesOfType "method" (fileNodes "a.go" fileAB).
Proof.
  destruct (statistics_match_nodes "a.go" fileAB ∅) as (_ & _ & _ & Hexact).
  apply Hexact. intros d Hd Hrecv.
  apply elem_of_cons in Hd as [[= ->]|Hd]; [done |].
  apply list_elem_of_singleton in Hd as [= ->]. done.
Defined.

(** ** The final model *)




(** ** Keys in the diagram *)

Lemma hasChar_replaceAll_same old new s :
  old ≠ new → hasChar old (replaceAll old new s) = false.
Proof.
  intros Hne. induction s as [|a s IH]; simpl; [done |].
  destruct (Ascii.eqb a old) eqn:Ha.
  - assert (Ascii.eqb new old = false) as -> by (apply Ascii.eqb_neq; congruence). done.
  - by rewrite Ha.
Qed.

Lemma hasChar_replaceAll_other c old new s :
  c ≠ new → hasChar c s = false → hasChar c (replaceAll old new s) = false.
Proof.
  intros Hne. induction s as [|a s IH]; simpl; [done |].
  destruct (Ascii.eqb a c) eqn:Hac; [done |]. intros Hs.
  destruct (Ascii.eqb a old).
  - assert (Ascii.eqb new c = false) as -> by (apply Ascii.eqb_neq; congruence). auto.
  - rewrite Hac. auto.
Qed.

Lemma length_replaceAll old new s :
  String.length (replaceAll old new s) = String.length s.
Proof. induction s as [|a s IH]; simpl; [done | by rewrite IH]. Qed.

Lemma replaceAll_absent old new s : hasChar old s = false → replaceAll old new s = s.
Proof.
  induction s as [|a s IH]; simpl; [done |].
  destruct (Ascii.eqb a old); [done |]. intros Hs. by rewrite IH.
Qed.

(** X22.  A cleaned key is fit for the diagram: it has the length of the
    key, holds no colon, no dot and no slash, and cleaning it again changes
    nothing. *)
Theorem cleanKey_clean (key : string) :
  String.length (cleanKey key) = String.length key
  ∧ hasChar ":" (cleanKey key) = false
  ∧ hasChar "." (cleanKey key) = false
  ∧ hasChar "/" (cleanKey key) = false
  ∧ cleanKey (cleanKey key) = cleanKey key.
Proof.
  assert (hasChar ":" (cleanKey key) = false) as Hcolon.
  { unfold cleanKey. do 2 (apply hasChar_replaceAll_other; [discriminate |]).
    apply hasChar_replaceAll_same. discriminate. }
  assert (hasChar "." (cleanKey key) = false) as Hdot.
  { unfold cleanKey. apply hasChar_replaceAll_other; [discriminate |].
    apply hasChar_replaceAll_same. discriminate. }
  assert (hasChar "/" (cleanKey key) = false) as Hslash.
  { unfold cleanKey. apply hasChar_replaceAll_same. discriminate. }
  split; [unfold cleanKey; by rewrite !length_replaceAll |].
  do 3 (split; [done |]).
  change (cleanKey (cleanKey key))
    with (replaceAll "/" "_" (replaceAll "." "_" (replaceAll ":" "_" (cleanKey key)))).
  by rewrite (replaceAll_absent ":" "_" _ Hcolon), (replaceAll_absent "." "_" _ Hdot),
    (replaceAll_absent "/" "_" _ Hslash).
Qed.

(** ** Calls across packages *)

Lemma countChar_app c s t : countChar c (s +:+ t) = countChar c s + countChar c t.
Proof. induction s as [|a s IH]; str_simpl; [done |]. rewrite IH. lia. Qed.

Lemma countChar_colonFree s : colonFree s → countChar colon s = 0.
Proof.
  unfold colonFree. induction s as [|a s IH]; simpl; [done |].
  destruct (Ascii.eqb a colon); [done | auto].
Qed.

Lemma countChar_key packageKey name :
  1 ≤ countChar colon packageKey → 2 ≤ countChar colon (packageKey +:+ ":" +:+ name).
Proof. intros Hpk. rewrite !countChar_app. simpl. lia. Qed.

Lemma countChar_mkPackageKey packagePath packageName :
  1 ≤ countChar colon (mkPackageKey packagePath packageName).
Proof. unfold mkPackageKey. rewrite !countChar_app. simpl. lia. Qed.

Lemma keysQualified_setNode key p st :
  2 ≤ countChar colon key → keysQualified st → keysQualified (setNode key p st).
Proof.
  intros Hkey Hst key'. simpl. rewrite lookup_insert. case_decide; [by subst | apply Hst].
Qed.

Lemma keysQualified_registerDecl packageKey relPath parent st decl :
  1 ≤ countChar colon packageKey →
  keysQualified st → keysQualified (registerDecl packageKey relPath parent st decl).
Proof.
  intros Hpk. destruct decl as [d|specs]; simpl.
  - intros Hst. apply keysQualified_setNode; [|exact Hst].
    unfold nodeKey. case_decide; by apply countChar_key.
  - revert st. induction specs as [|spec specs IH]; intros st Hst; simpl; [done |].
    apply IH. destruct spec as [| |name type_]; simpl; try done.
    apply keysQualified_setNode; [by apply countChar_key | exact Hst].
Qed.

Lemma keysQualified_processGoFile relPath file root packages st :
  keysQualified st → keysQualified (processGoFile relPath file root (packages, st)).2.
Proof.
  intros Hst. destruct file as [file|]; [|done]. unfold processGoFile.
  set (packageKey := mkPackageKey _ _).
  assert (∀ decls parent st', keysQualified st' →
            keysQualified (foldl (registerDecl packageKey relPath parent) st' decls))
    as Hfold.
  { induction decls as [|decl decls IH]; intros parent st' Hst'; simpl; [done |].
    apply IH, keysQualified_registerDecl; [apply countChar_mkPackageKey | done]. }
  destruct (packages !! packageKey); simpl; by apply Hfold.
Qed.

Lemma keysQualified_run repoName ops : keysQualified (world (run repoName ops)).
Proof.
  unfold run.
  assert (keysQualified (world (initialWorld repoName))) as Hinit.
  { intros key. simpl. rewrite lookup_empty. by intros [? ?]. }
  revert Hinit. generalize (initialWorld repoName).
  induction ops as [|op ops IH]; intros w Hw; simpl; [done |].
  apply IH. destruct op as [relPath file|relPath file]; simpl.
  - by apply keysQualified_processGoFile.
  - rewrite analyzeFile_calls. simpl. intros key. rewrite allNodes_linkCalls. apply Hw.
Qed.

(** X23.  Calls across packages never reach the call graph.  A call
    [alias.F] through an import alias resolves to the import path and [F]
    with one colon between them, while every registered key has two at
    least; so, the import path and [F] holding no colon, the resolved key is
    registered in no reachable state and the visit of the call leaves the
    store as it is. *)
Theorem aliased_calls_never_linked (repoName : string) (ops : list Op)
    (packageKey : string) (importMap : gmap string string)
    (alias sel importPath : string) :
  importMap !! alias = Some importPath →
  colonFree importPath → colonFree sel →
  let st := world (run repoName ops) in
  let callFun := SelectorExpr (Ident alias) sel in
  allNodes st !! resolveCallExpr callFun packageKey importMap = None
  ∧ ∀ current counts,
      store (visitCallExpr packageKey importMap callFun (mkWalk current counts st)) = st.
Proof.
  intros Halias Hpath Hsel st callFun.
  assert (allNodes st !! resolveCallExpr callFun packageKey importMap = None) as Hnone.
  { simpl. rewrite Halias.
    destruct (allNodes st !! (importPath +:+ ":" +:+ sel)) eqn:Hkey; [|done].
    assert (2 ≤ countChar colon (importPath +:+ ":" +:+ sel)) as Hcount
      by (apply (keysQualified_run repoName ops); by eexists).
    rewrite !countChar_app in Hcount.
    rewrite (countChar_colonFree importPath Hpath), (countChar_colonFree sel Hsel) in Hcount.
    simpl in Hcount. lia. }
  split; [exact Hnone |]. intros current counts.
  unfold visitCallExpr. revert Hnone.
  generalize (resolveCallExpr callFun packageKey importMap). intros key Hnone.
  simpl. destruct current as [currentFuncKey|]; [|done].
  case_decide; [|done]. simpl. unfold establishRelationship.
  destruct (allNodes st !! currentFuncKey); [|done]. by rewrite Hnone.
Qed.

Lemma aliased_calls_never_linked_witness :
  let st := world (run "repo" [Extract "lib/util/u.go"
                                 (Some (mkFile "util" [] [DFunc (mkFuncDecl None "Do" [] [])]))]) in
  allNodes st !! "lib/util:Do" = None
  ∧ allNodes st !! "lib/util:util:Do" = Some 2.
Proof.
  split; [|vm_compute; reflexivity].
  refine (proj1 (aliased_calls_never_linked "repo" _ ".:p" {["u" := "lib/util"]}
                   "u" "Do" "lib/util" _ _ _)); reflexivity.
Defined.

(** X24.  A file without function declarations is inert for the
    resolution: whatever calls its variable initializers and types hold,
    its analysis changes neither the counts nor the store. *)
Theorem file_without_functions_is_inert (relPath : string) (file : File)
    (cs : gmap string nat * State) :
  noFunctions file → analyzeFile relPath (Some file) cs = cs.
Proof.
  intros Hfile. destruct cs as [counts st]. rewrite analyzeFile_calls.
  assert (fileCalls relPath (Some file) = []) as ->; [|done].
  unfold fileCalls. generalize (buildImportMap file) (mkPackageKey (filepathDir relPath)
                                                        (PkgName file)).
  intros importMap packageKey. unfold noFunctions in Hfile.
  induction (Decls file) as [|decl decls IH]; simpl; [done |].
  destruct (Hfile decl) as [specs ->]; [by left |]. simpl.
  assert (∀ calls events,
            resolvedCalls packageKey importMap None ((CallSite <$> calls) ++ events)
            = resolvedCalls packageKey importMap None events) as Hskip.
  { induction calls as [|callFun calls IHc]; intros events; simpl; [done | apply IHc]. }
  rewrite Hskip. apply IH. intros decl Hdecl. apply Hfile. by right.
Qed.

Lemma file_without_functions_is_inert_witness :
  let file := mkFile "p" [] [DGen [ValueSpec ["v"] [CallExpr (Ident "B") []]]] in
  analyzeFile "a.go" (Some file) (∅, mkState [] ∅) = (∅, mkState [] ∅).
Proof.
  intros file. apply (file_without_functions_is_inert "a.go" file).
  intros decl Hdecl. apply list_elem_of_singleton in Hdecl as ->. by eexists.
Defined.

(** ** Method calls *)

Lemma app_sep_inj c s1 s2 t1 t2 :
  hasChar c t1 = false → hasChar c t2 = false →
  s1 +:+ String c t1 = s2 +:+ String c t2 → s1 = s2 ∧ t1 = t2.
Proof.
  intros Ht1 Ht2. revert s2.
  induction s1 as [|a s1 IH]; intros [|b s2] Heq; str_simpl_in Heq.
  - by injection Heq as ->.
  - injection Heq as _ ->. pose proof (hasChar_app_mid c s2 t2). congruence.
  - injection Heq as _ <-. pose proof (hasChar_app_mid c s1 t1). congruence.
  - injection Heq as -> Heq. destruct (IH _ Heq) as [-> ->]. done.
Qed.

Lemma buildFunctionKey_named packageKey T m :
  T ≠ "" → namedReceiver T m →
  buildFunctionKey packageKey m = packageKey +:+ ":" +:+ T +:+ "." +:+ FuncName m.
Proof.
  intros HT [rest [Hrecv|Hrecv]]; unfold buildFunctionKey; rewrite Hrecv; simpl;
    by rewrite decide_True.
Qed.

(** X25.  The resolver takes the text before the dot for the receiver type.
    A call [x.M], [x] being no import alias, resolves to the key of the
    method [M'] of a type [T] exactly when [x] is spelled [T] and [M] is
    [M']: a call through a variable reaches its method only if the variable
    bears the name of its type.  (Method names are identifiers and hold no
    dot.) *)
Theorem method_call_needs_type_name (packageKey : string)
    (importMap : gmap string string) (x M T : string) (m : FuncDecl) :
  importMap !! x = None →
  T ≠ "" → namedReceiver T m →
  hasChar "." M = false → hasChar "." (FuncName m) = false →
  resolveCallExpr (SelectorExpr (Ident x) M) packageKey importMap
  = buildFunctionKey packageKey m
  ↔ x = T ∧ M = FuncName m.
Proof.
  intros Hx HT Hm HM Hname. rewrite (buildFunctionKey_named packageKey T m HT Hm).
  simpl. rewrite Hx. split.
  - intros Heq. apply app_inv_head_str, app_inv_head_str in Heq.
    by apply (app_sep_inj "." x T M (FuncName m)).
  - by intros [-> ->].
Qed.

Lemma method_call_needs_type_name_witness :
  let m := mkFuncDecl (Some [StarExpr (Ident "Logger")]) "Info" [] [] in
  resolveCallExpr (SelectorExpr (Ident "log") "Info") ".:main" ∅
  ≠ buildFunctionKey ".:main" m
  ∧ resolveCallExpr (SelectorExpr (Ident "Logger") "Info") ".:main" ∅
    = buildFunctionKey ".:main" m.
Proof.
  intros m.
  assert (namedReceiver "Logger" m) as Hm by (exists []; by right).
  split.
  - intros Heq.
    apply (method_call_needs_type_name ".:main" ∅ "log" "Info" "Logger" m) in Heq
      as [Hx _]; done.
  - by apply (method_call_needs_type_name ".:main" ∅ "Logger" "Info" "Logger" m).
Defined.
